(** * gcloud.streaming.util: type assertion, retry back-off and MIME matching

    A shallow embedding of [type_check], [calculate_wait_for_retry] and
    [acceptable_mime_type] from [gcloud/streaming/util.py].

    Numbers.  The back-off computation mixes [int] and [float].  An
    [int] is an integer; a [float] is a rational that is a double, and
    every operation on floats rounds its exact result to a nearest
    double, ties to even ([round_double]).  Converting an [int] to a
    [float] raises [OverflowError] when it is too large for a double;
    the comparisons of [min] and [max] are exact.

    Randomness.  [random.uniform(a, b)] computes [a + (b - a) * random()]
    with [random()] in the half-open interval from 0 to 1.  The value of
    that draw is an explicit argument [u] of the embedded function. *)

From Stdlib Require Import ZArith QArith Qpower Qminmax Qabs Qround Lqa Lia.
From Stdlib Require Import Bool List Ascii String Permutation.
Import ListNotations.

(** ** Back-off calculator *)

Module Backoff.

Local Open Scope Q_scope.

(** Python's [a < b] on numbers. *)
Definition Qlt_bool (a b : Q) : bool := negb (Qle_bool b a).

(** Built-in [min(a, b)]: the first argument unless the second is
    strictly smaller. *)
Definition py_min (a b : Q) : Q := if Qlt_bool b a then b else a.

(** Built-in [max(a, b)]: the first argument unless the second is
    strictly larger. *)
Definition py_max (a b : Q) : Q := if Qlt_bool a b then b else a.

(** *** Doubles *)

(** The integer nearest to [q], the even one of the two at a tie. *)
Definition round_half_even (q : Q) : Z :=
  let f := Qfloor q in
  match Qcompare (q - inject_Z f) (1 # 2) with
  | Lt => f
  | Gt => (f + 1)%Z
  | Eq => if Z.even f then f else (f + 1)%Z
  end.

(** The exponent [e] with [2^e <= q < 2^(e+1)], for a positive [q]. *)
Definition ilog2 (q : Q) : Z :=
  let k := (Z.log2 (Qnum q) - Z.log2 (Zpos (Qden q)))%Z in
  if Qle_bool (2 ^ k) q then k else (k - 1)%Z.

(** The exponent of the spacing of the doubles around [q]: 52 below the
    exponent of [q], and that of the subnormal numbers below
    [2^-1022]. *)
Definition ulp_exponent (q : Q) : Z :=
  (Z.max (ilog2 (Qabs q)) (-1022) - 52)%Z.

(** The double nearest to [q], ties to even.  The exponent has no upper
    end here: conversion from [int] checks the range itself, below, and
    the other values that the function rounds stay under [2^1024]. *)
Definition round_double (q : Q) : Q :=
  let p := ulp_exponent q in
  inject_Z (round_half_even (q / 2 ^ p)) * 2 ^ p.

(** A double: at most 53 significant bits above the exponent -1074. *)
Definition representable (c : Q) : Prop :=
  exists m k : Z,
    (Z.abs m < 2 ^ 53)%Z /\ (-1074 <= k)%Z /\ c == inject_Z m * 2 ^ k.

(** The arithmetic of [float]: the exact result, rounded. *)
Definition float_add (x y : Q) : Q := round_double (x + y).
Definition float_sub (x y : Q) : Q := round_double (x - y).
Definition float_mul (x y : Q) : Q := round_double (x * y).
Definition float_div (x y : Q) : Q := round_double (x / y).

(** *** Values and errors *)

(** A call returns its value or raises [OverflowError]. *)
Inductive raising (A : Type) : Type :=
  | Returns (v : A)
  | RaisesOverflowError.

Arguments Returns {A} v.
Arguments RaisesOverflowError {A}.

Definition bind {A B : Type} (c : raising A) (k : A -> raising B)
  : raising B :=
  match c with
  | Returns v => k v
  | RaisesOverflowError => RaisesOverflowError
  end.

Local Notation "x <- c ;; k" := (bind c (fun x => k))
  (at level 61, c at next level, right associativity).

(** A number is an [int] or a [float]. *)
Inductive number : Type :=
  | Int (n : Z)
  | Float (x : Q).

(** The least magnitude of an [int] that does not convert to a double:
    it would round to [2^1024]. *)
Definition float_overflow : Z := (2 ^ 1024 - 2 ^ 970)%Z.

(** [float(n)] for an [int], as the arithmetic converts an operand. *)
Definition float_of_int (n : Z) : raising Q :=
  if (float_overflow <=? Z.abs n)%Z then RaisesOverflowError
  else Returns (round_double (inject_Z n)).

Definition to_float (v : number) : raising Q :=
  match v with
  | Int n => float_of_int n
  | Float x => Returns x
  end.

(** [2 ** e] for an [int] exponent: an exact [int] when [e] is not
    negative; otherwise the power of the two operands converted to
    [float], which underflows to zero without an error. *)
Definition two_pow (e : Z) : raising number :=
  if (0 <=? e)%Z then Returns (Int (2 ^ e))
  else
    x <- float_of_int e ;;
    Returns (Float (round_double (2 ^ Qfloor x))).

(** *** The function *)

(** [random.uniform(a, b)] for the draw [u] of [random.random()]. *)
Definition uniform (a b u : Q) : Q :=
  float_add a (float_mul (float_sub b a) u).

(** The range of [random.random()]. *)
Definition unit_draw (u : Q) : Prop := 0 <= u /\ u < 1.

(** [calculate_wait_for_retry(retry_attempt, max_wait)], for an [int]
    [retry_attempt], a finite number [max_wait] and the draw [u] taken
    by its call of [random.uniform].  Line 54 is [two_pow]; line 55
    converts [wait_time] for the division by [4.0]; line 56 adds the
    jitter to the converted [wait_time]; line 57 is the clamp. *)
Definition calculate_wait_for_retry
    (retry_attempt : Z) (max_wait : Q) (u : Q) : raising Q :=
  wait_time <- two_pow retry_attempt ;;
  wait_float <- to_float wait_time ;;
  let max_jitter := float_div wait_float 4 in
  let wait_time :=
    float_add wait_float (uniform (- max_jitter) max_jitter u) in
  Returns (py_max 1 (py_min wait_time max_wait)).

(** The default [max_wait=60]. *)
Definition default_max_wait : Q := 60.

(** The [float] that [wait_time] is in the arithmetic of the call, when
    no conversion raises. *)
Definition wait_float (retry_attempt : Z) : Q :=
  if (0 <=? retry_attempt)%Z then round_double (inject_Z (2 ^ retry_attempt))
  else round_double (2 ^ Qfloor (round_double (inject_Z retry_attempt))).

(** The jitter that the call samples. *)
Definition jitter (retry_attempt : Z) (u : Q) : Q :=
  let max_jitter := float_div (wait_float retry_attempt) 4 in
  uniform (- max_jitter) max_jitter u.

(** The sum of [wait_time] and the jitter, as the call rounds it. *)
Definition jittered (retry_attempt : Z) (u : Q) : Q :=
  float_add (wait_float retry_attempt) (jitter retry_attempt u).

(** The attempts for which no conversion raises. *)
Definition convertible (retry_attempt : Z) : Prop :=
  (- float_overflow < retry_attempt <= 1023)%Z.


End Backoff.

(** ** MIME matcher *)

Module Mime.

Local Open Scope string_scope.

(** The two exceptions of [gcloud.streaming.exceptions] that
    [acceptable_mime_type] raises, with their message. *)
Inductive exn : Type :=
  | InvalidUserInputError (msg : string)
  | ConfigurationValueError (msg : string).

(** A call either returns its boolean or raises. *)
Inductive outcome : Type :=
  | Return (b : bool)
  | Raise (e : exn).

(** The double-quote character of the two messages. *)
Definition dquote : string := String "034"%char EmptyString.

(** [c in s] for a one-character string [c]. *)
Fixpoint char_in (c : ascii) (s : string) : bool :=
  match s with
  | EmptyString => false
  | String d rest => if Ascii.eqb c d then true else char_in c rest
  end.

(** [s.split(sep)] for a one-character separator: the pieces between
    the occurrences of [sep], empty pieces included, never the empty
    list. *)
Fixpoint split (sep : ascii) (s : string) : list string :=
  match s with
  | EmptyString => [EmptyString]
  | String c rest =>
      if Ascii.eqb c sep then EmptyString :: split sep rest
      else match split sep rest with
           | [] => [String c EmptyString]
           | piece :: pieces => String c piece :: pieces
           end
  end.

(** [accept in ('*', provided)]: membership in a tuple, by [==]. *)
Definition in_tuple (accept : string) (t : list string) : bool :=
  existsb (String.eqb accept) t.

(** The inner function [_match(pattern, mime_type)]: [all] over the
    [zip] of the two splits. *)
Definition _match (pattern mime_type : string) : bool :=
  forallb (fun '(accept, provided) => in_tuple accept ["*"; provided])
          (combine (split "/" pattern) (split "/" mime_type)).

(** The list comprehension [[p for p in accept_patterns if ';' in p]]. *)
Definition unsupported_patterns (accept_patterns : list string)
  : list string :=
  filter (char_in ";") accept_patterns.

Definition invalid_mime_message (mime_type : string) : string :=
  "Invalid MIME type: " ++ dquote ++ mime_type ++ dquote.

Definition unsupported_message (unsupported : list string) : string :=
  "MIME patterns with parameter unsupported: " ++ dquote
    ++ String.concat ", " unsupported ++ dquote.

(** [acceptable_mime_type(accept_patterns, mime_type)]. *)
Definition acceptable_mime_type
    (accept_patterns : list string) (mime_type : string) : outcome :=
  if negb (char_in "/" mime_type) then
    Raise (InvalidUserInputError (invalid_mime_message mime_type))
  else
    let unsupported := unsupported_patterns accept_patterns in
    match unsupported with
    | _ :: _ =>
        Raise (ConfigurationValueError (unsupported_message unsupported))
    | [] =>
        Return (existsb (fun pattern => _match pattern mime_type)
                        accept_patterns)
    end.

(** The call raised, whichever the exception. *)
Definition raises (o : outcome) : Prop :=
  match o with Raise _ => True | Return _ => False end.

(** [p] occurs in [msg] as a contiguous piece. *)
Definition occurs_in (p msg : string) : Prop :=
  exists pre post, msg = pre ++ p ++ post.

(** The spec's matching rule, position by position on the overlap of
    the two splits (shortest zip): the pattern component is the
    wildcard or equals the candidate's. *)
Definition spec_matches (pattern mime_type : string) : Prop :=
  let ps := split "/" pattern in
  let ms := split "/" mime_type in
  forall i : nat,
    (i < Nat.min (List.length ps) (List.length ms))%nat ->
    nth i ps "" = "*" \/ nth i ps "" = nth i ms "".

End Mime.

(** ** Well-formed MIME types *)

Module MimeShape.

Import Mime.
Local Open Scope string_scope.

(** The text [type/subtype] of the two components. *)
Definition mime_of (type subtype : string) : string :=
  type ++ "/" ++ subtype.

(** A pattern component accepts a candidate component: it is the
    wildcard or the same text. *)
Definition component_accepts (accept provided : string) : bool :=
  String.eqb accept "*" || String.eqb accept provided.

(** A pattern given by its two components accepts a candidate given by
    its two: component by component. *)
Definition pair_accepts (pattern candidate : string * string) : bool :=
  component_accepts (fst pattern) (fst candidate)
  && component_accepts (snd pattern) (snd candidate).

(** A component of a pattern: neither separator nor parameter mark. *)
Definition plain_component (s : string) : Prop :=
  char_in "/" s = false /\ char_in ";" s = false.

End MimeShape.

(** ** Type assertion *)

Module TypeCheck.

Local Open Scope string_scope.

(** The outcome of [type_check]: the value, or [TypecheckError] with
    its message. *)
Inductive checked (A : Type) : Type :=
  | Returns (v : A)
  | RaisesTypecheckError (msg : string).

Arguments Returns {A} v.
Arguments RaisesTypecheckError {A} msg.

(** What [isinstance] takes as its second argument: a class, or a
    tuple of such, tuples included. *)
#[warnings="-register-all"]
Inductive type_arg (pytype : Type) : Type :=
  | Class (t : pytype)
  | Tuple (ts : list (type_arg pytype)).

Arguments Class {pytype} t.
Arguments Tuple {pytype} ts.

Section WithObjects.

(** Python's values and classes, the class of a value, the instance
    relation on classes, and the texts that [%s] and [%r] print. *)
Variables value pytype : Type.
Variable type_of : value -> pytype.
Variable instance_of : value -> pytype -> bool.
Variable str_type : pytype -> string.
Variable repr_arg : type_arg pytype -> string.

(** [isinstance(arg, arg_type)]: for a tuple, an instance of any of its
    entries. *)
Fixpoint isinstance (arg : value) (arg_type : type_arg pytype) : bool :=
  match arg_type with
  | Class t => instance_of arg t
  | Tuple ts => existsb (isinstance arg) ts
  end.

(** The two default messages, by [isinstance(arg_type, tuple)]. *)
Definition default_message (arg : value) (arg_type : type_arg pytype)
  : string :=
  match arg_type with
  | Tuple _ =>
      "Type of arg is " ++ Mime.dquote ++ str_type (type_of arg)
        ++ Mime.dquote ++ ", not one of " ++ repr_arg arg_type
  | Class t =>
      "Type of arg is " ++ Mime.dquote ++ str_type (type_of arg)
        ++ Mime.dquote ++ ", not " ++ Mime.dquote ++ str_type t
        ++ Mime.dquote
  end.

(** [type_check(arg, arg_type, msg=None)]. *)
Definition type_check (arg : value) (arg_type : type_arg pytype)
    (msg : option string) : checked value :=
  if negb (isinstance arg arg_type) then
    let msg :=
      match msg with
      | None => default_message arg arg_type
      | Some given => given
      end in
    RaisesTypecheckError msg
  else Returns arg.

End WithObjects.

End TypeCheck.

(** ** Facts about the back-off calculator *)

Module BackoffFacts.

Import Backoff.
Local Open Scope Q_scope.

Lemma Qlt_bool_iff (a b : Q) : Qlt_bool a b = true <-> a < b.
Proof.
  unfold Qlt_bool. rewrite negb_true_iff.
  split.
  - intros H. apply Qnot_le_lt. intros Hle.
    apply Qle_bool_iff in Hle. congruence.
  - intros H. destruct (Qle_bool b a) eqn:E; [|reflexivity].
    apply Qle_bool_iff in E. exfalso. apply (Qlt_not_le _ _ H E).
Qed.

Lemma Qlt_bool_false_iff (a b : Q) : Qlt_bool a b = false <-> b <= a.
Proof.
  unfold Qlt_bool. rewrite negb_false_iff. apply Qle_bool_iff.
Qed.

Lemma py_min_cases (a b : Q) :
  (b < a /\ py_min a b = b) \/ (a <= b /\ py_min a b = a).
Proof.
  unfold py_min. destruct (Qlt_bool b a) eqn:E.
  - left. split; [apply Qlt_bool_iff; exact E | reflexivity].
  - right. split; [apply Qlt_bool_false_iff; exact E | reflexivity].
Qed.

Lemma py_max_cases (a b : Q) :
  (a < b /\ py_max a b = b) \/ (b <= a /\ py_max a b = a).
Proof.
  unfold py_max. destruct (Qlt_bool a b) eqn:E.
  - left. split; [apply Qlt_bool_iff; exact E | reflexivity].
  - right. split; [apply Qlt_bool_false_iff; exact E | reflexivity].
Qed.



(** The clamp never goes below one, and stays under a bound of at
    least one. *)
Lemma clamp_bounds (w m : Q) :
  1 <= py_max 1 (py_min w m) /\
  (1 <= m -> py_max 1 (py_min w m) <= m).
Proof.
  destruct (py_min_cases w m) as [[H1 ->]|[H1 ->]];
    [destruct (py_max_cases 1 m) as [[H2 ->]|[H2 ->]]
    |destruct (py_max_cases 1 w) as [[H2 ->]|[H2 ->]]];
    split; intros; lra.
Qed.

(** *** Rounding to a double *)

Lemma pow2_pos (n : Z) : 0 < 2 ^ n.
Proof. apply Qpower_0_lt. reflexivity. Qed.

Lemma round_half_even_floor (q : Q) :
  (Qfloor q <= round_half_even q <= Qfloor q + 1)%Z.
Proof.
  unfold round_half_even.
  destruct (Qcompare (q - inject_Z (Qfloor q)) (1 # 2)); try lia.
  destruct (Z.even (Qfloor q)); lia.
Qed.

Lemma round_half_even_lower (k : Z) (q : Q) :
  inject_Z k <= q -> (k <= round_half_even q)%Z.
Proof.
  intros H. apply Qfloor_resp_le in H. rewrite Qfloor_Z in H.
  pose proof (round_half_even_floor q). lia.
Qed.

Lemma round_half_even_upper (k : Z) (q : Q) :
  q <= inject_Z k -> (round_half_even q <= k)%Z.
Proof.
  intros H. pose proof (Qfloor_resp_le _ _ H) as Hf. rewrite Qfloor_Z in Hf.
  pose proof (round_half_even_floor q) as Hr.
  destruct (Z.eq_dec (Qfloor q) k) as [E|E]; [|lia].
  unfold round_half_even. rewrite E.
  assert (Hq : q - inject_Z k < 1 # 2) by lra.
  rewrite (proj1 (Qlt_alt _ _) Hq). lia.
Qed.

Lemma ilog2_le (q : Q) : 0 < q -> 2 ^ ilog2 q <= q.
Proof.
  intros Hq. unfold ilog2.
  set (k := (Z.log2 (Qnum q) - Z.log2 (Z.pos (Qden q)))%Z).
  destruct (Qle_bool (2 ^ k) q) eqn:E; [apply Qle_bool_iff, E|].
  destruct q as [n d]. cbn [Qnum Qden] in k.
  assert (Hn : (0 < n)%Z).
  { unfold Qlt in Hq. simpl in Hq. lia. }
  pose proof (Z.log2_spec n Hn) as [Hn1 _].
  pose proof (Z.log2_spec (Z.pos d) (Pos2Z.is_pos d)) as [_ Hd2].
  pose proof (Z.log2_nonneg n) as Hln.
  pose proof (Z.log2_nonneg (Z.pos d)) as Hld.
  replace (k - 1)%Z with (Z.log2 n - Z.succ (Z.log2 (Z.pos d)))%Z
    by (unfold k; lia).
  rewrite Qpower_minus by (intros H; discriminate H).
  apply Qle_shift_div_r; [apply pow2_pos|].
  rewrite <- (Zpower_Qpower 2 (Z.log2 n)) by lia.
  rewrite <- (Zpower_Qpower 2 (Z.succ (Z.log2 (Z.pos d)))) by lia.
  apply Qle_trans with (inject_Z n).
  - rewrite <- Zle_Qle. exact Hn1.
  - revert Hd2. generalize (2 ^ Z.succ (Z.log2 (Z.pos d)))%Z. intros P HP.
    unfold Qmult, Qle, inject_Z. cbn [Qnum Qden].
    rewrite Pos.mul_1_r, !Z.mul_1_r.
    apply Z.mul_le_mono_nonneg_l; lia.
Qed.

Lemma ilog2_lt (q : Q) : 0 < q -> q < 2 ^ (ilog2 q + 1).
Proof.
  intros Hq. unfold ilog2.
  set (k := (Z.log2 (Qnum q) - Z.log2 (Z.pos (Qden q)))%Z).
  destruct (Qle_bool (2 ^ k) q) eqn:E.
  - destruct q as [n d]. cbn [Qnum Qden] in k.
    assert (Hn : (0 < n)%Z).
    { unfold Qlt in Hq. simpl in Hq. lia. }
    pose proof (Z.log2_spec n Hn) as [_ Hn2].
    pose proof (Z.log2_spec (Z.pos d) (Pos2Z.is_pos d)) as [Hd1 _].
    pose proof (Z.log2_nonneg n) as Hln.
    pose proof (Z.log2_nonneg (Z.pos d)) as Hld.
    replace (k + 1)%Z with (Z.succ (Z.log2 n) - Z.log2 (Z.pos d))%Z
      by (unfold k; lia).
    rewrite Qpower_minus by (intros H; discriminate H).
    apply Qlt_shift_div_l; [apply pow2_pos|].
    rewrite <- (Zpower_Qpower 2 (Z.succ (Z.log2 n))) by lia.
    rewrite <- (Zpower_Qpower 2 (Z.log2 (Z.pos d))) by lia.
    apply Qle_lt_trans with (inject_Z n).
    + revert Hd1. generalize (2 ^ Z.log2 (Z.pos d))%Z. intros P HP.
      unfold Qmult, Qle, inject_Z. cbn [Qnum Qden].
      rewrite Z.mul_1_r. apply Z.mul_le_mono_nonneg_l; lia.
    + rewrite <- Zlt_Qlt. exact Hn2.
  - replace (k - 1 + 1)%Z with k by lia.
    apply Qnot_le_lt. intros H. apply Qle_bool_iff in H. congruence.
Qed.

Lemma grid_lower (p k : Z) (x : Q) :
  inject_Z k * 2 ^ p <= x ->
  inject_Z k * 2 ^ p <= inject_Z (round_half_even (x / 2 ^ p)) * 2 ^ p.
Proof.
  intros H. apply Qmult_le_r; [apply pow2_pos|].
  rewrite <- Zle_Qle. apply round_half_even_lower.
  apply Qle_shift_div_l; [apply pow2_pos | exact H].
Qed.

Lemma grid_upper (p k : Z) (x : Q) :
  x <= inject_Z k * 2 ^ p ->
  inject_Z (round_half_even (x / 2 ^ p)) * 2 ^ p <= inject_Z k * 2 ^ p.
Proof.
  intros H. apply Qmult_le_r; [apply pow2_pos|].
  rewrite <- Zle_Qle. apply round_half_even_upper.
  apply Qle_shift_div_r; [apply pow2_pos | exact H].
Qed.

Lemma pow2_split (k p : Z) :
  (p <= k)%Z -> 2 ^ k == inject_Z (2 ^ (k - p)) * 2 ^ p.
Proof.
  intros H. rewrite Zpower_Qpower by lia.
  rewrite <- Qpower_plus by (intros E; discriminate E).
  now replace (k - p + p)%Z with k by lia.
Qed.

Lemma on_grid (m k p : Z) :
  (p <= k)%Z ->
  inject_Z m * 2 ^ k == inject_Z (m * 2 ^ (k - p)) * 2 ^ p.
Proof.
  intros H. rewrite inject_Z_mult, (pow2_split k p H). ring.
Qed.

Lemma pow2_le (n m : Z) : (n <= m)%Z -> 2 ^ n <= 2 ^ m.
Proof. intros H. apply Qpower_le_compat_l; [exact H | lra]. Qed.

Lemma representable_small (m k : Z) :
  (Z.abs m < 2 ^ 53)%Z ->
  - 2 ^ (k + 53) < inject_Z m * 2 ^ k /\ inject_Z m * 2 ^ k < 2 ^ (k + 53).
Proof.
  intros Hm.
  rewrite Qpower_plus by (intros E; discriminate E).
  pose proof (pow2_pos k) as Hk.
  assert (H53 : 2 ^ 53 == inject_Z (2 ^ 53)) by reflexivity.
  rewrite H53.
  assert (H1 : inject_Z m < inject_Z (2 ^ 53)) by (rewrite <- Zlt_Qlt; lia).
  assert (H2 : inject_Z (- 2 ^ 53) < inject_Z m) by (rewrite <- Zlt_Qlt; lia).
  assert (H3 : inject_Z (- 2 ^ 53) == - inject_Z (2 ^ 53)) by reflexivity.
  rewrite H3 in H2.
  revert H1 H2. generalize (inject_Z (2 ^ 53)) (inject_Z m) Hk.
  generalize (2 ^ k). intros b B M Hb H1 H2.
  split.
  - setoid_replace (- (b * B)) with ((- B) * b) by ring.
    apply Qmult_lt_compat_r; assumption.
  - setoid_replace (b * B) with (B * b) by ring.
    apply Qmult_lt_compat_r; assumption.
Qed.

(** In the binade of [x], well above the exponent [k]. *)
Lemma coarse_grid (x : Q) (k : Z) :
  ~ x == 0 -> (-1074 <= k)%Z -> (k < ulp_exponent x)%Z ->
  2 ^ (k + 53) <= Qabs x /\
  exists e, 2 ^ e <= Qabs x /\ (k + 53 <= e)%Z /\
            2 ^ e == inject_Z (2 ^ 52) * 2 ^ ulp_exponent x.
Proof.
  intros Hx Hk Hp. unfold ulp_exponent in *.
  set (e := ilog2 (Qabs x)) in *.
  assert (Hpos : 0 < Qabs x).
  { destruct (Qlt_le_dec 0 (Qabs x)) as [H|H]; [exact H|].
    exfalso. apply Hx. pose proof (Qabs_nonneg x) as H0.
    assert (E : Qabs x == 0) by lra.
    revert E. apply Qabs_case; intros ? E; lra. }
  pose proof (ilog2_le _ Hpos) as He. fold e in He.
  assert (Hek : (k + 53 <= e)%Z) by lia.
  split.
  - apply Qle_trans with (2 := He). apply pow2_le, Hek.
  - exists e. split; [exact He|]. split; [exact Hek|].
    replace (Z.max e (-1022)) with e by lia.
    rewrite (pow2_split e (e - 52)) by lia.
    now replace (e - (e - 52))%Z with 52%Z by lia.
Qed.

Lemma round_double_zero (x : Q) : x == 0 -> round_double x == 0.
Proof.
  intros E. unfold round_double.
  set (p := ulp_exponent x).
  pose proof (grid_lower p 0 x) as Hl. pose proof (grid_upper p 0 x) as Hu.
  assert (Z0 : inject_Z 0 * 2 ^ p == 0) by ring.
  rewrite Z0 in Hl, Hu.
  apply Qle_antisym; [apply Hu | apply Hl]; rewrite E; apply Qle_refl.
Qed.

Lemma round_double_ge (c x : Q) :
  representable c -> c <= x -> c <= round_double x.
Proof.
  intros (m & k & Hm & Hk & Hc) Hcx.
  destruct (Qeq_dec x 0) as [Hx|Hx].
  { rewrite (round_double_zero x Hx). now rewrite <- Hx. }
  unfold round_double.
  destruct (Z_le_gt_dec (ulp_exponent x) k) as [Hp|Hp].
  - rewrite Hc, (on_grid m k _ Hp). apply grid_lower.
    now rewrite <- (on_grid m k _ Hp), <- Hc.
  - destruct (coarse_grid x k Hx Hk ltac:(lia)) as [Hbig (e & He & Hek & Hg)].
    destruct (representable_small m k Hm) as [Hlo Hhi].
    rewrite <- Hc in Hlo, Hhi.
    destruct (Qlt_le_dec x 0) as [Hneg|Hnn].
    + exfalso. rewrite (Qabs_neg x) in Hbig by lra. lra.
    + rewrite (Qabs_pos x) in He by exact Hnn.
      apply Qle_trans with (2 ^ e).
      * apply Qle_trans with (2 ^ (k + 53)); [lra | apply pow2_le, Hek].
      * rewrite Hg. apply grid_lower. now rewrite <- Hg.
Qed.

Lemma round_double_le (c x : Q) :
  representable c -> x <= c -> round_double x <= c.
Proof.
  intros (m & k & Hm & Hk & Hc) Hcx.
  destruct (Qeq_dec x 0) as [Hx|Hx].
  { rewrite (round_double_zero x Hx). now rewrite <- Hx. }
  unfold round_double.
  destruct (Z_le_gt_dec (ulp_exponent x) k) as [Hp|Hp].
  - rewrite Hc, (on_grid m k _ Hp). apply grid_upper.
    now rewrite <- (on_grid m k _ Hp), <- Hc.
  - destruct (coarse_grid x k Hx Hk ltac:(lia)) as [Hbig (e & He & Hek & Hg)].
    destruct (representable_small m k Hm) as [Hlo Hhi].
    rewrite <- Hc in Hlo, Hhi.
    destruct (Qlt_le_dec x 0) as [Hneg|Hnn].
    + rewrite (Qabs_neg x) in He by lra.
      apply Qle_trans with (- 2 ^ e).
      * assert (Hg' : - 2 ^ e == inject_Z (- 2 ^ 52) * 2 ^ ulp_exponent x).
        { rewrite Hg. change (inject_Z (- 2 ^ 52)) with (- inject_Z (2 ^ 52)).
          ring. }
        rewrite Hg'. apply grid_upper. rewrite <- Hg'. lra.
      * pose proof (pow2_le _ _ Hek). lra.
    + exfalso. rewrite (Qabs_pos x) in Hbig by exact Hnn. lra.
Qed.

Lemma round_double_exact (c : Q) : representable c -> round_double c == c.
Proof.
  intros H. apply Qle_antisym.
  - apply round_double_le; [exact H | apply Qle_refl].
  - apply round_double_ge; [exact H | apply Qle_refl].
Qed.

Lemma round_double_between (lo hi x : Q) :
  representable lo -> representable hi -> lo <= x -> x <= hi ->
  lo <= round_double x /\ round_double x <= hi.
Proof.
  intros Hlo Hhi H1 H2. split.
  - apply round_double_ge; assumption.
  - apply round_double_le; assumption.
Qed.

Lemma representable_scaled (m k : Z) :
  (Z.abs m < 2 ^ 53)%Z -> (-1074 <= k)%Z ->
  representable (inject_Z m * 2 ^ k).
Proof.
  intros Hm Hk. exists m, k.
  split; [exact Hm|]. split; [exact Hk | reflexivity].
Qed.

Lemma representable_eq (c c' : Q) :
  c == c' -> representable c -> representable c'.
Proof.
  intros E (m & k & Hm & Hk & Hc). exists m, k.
  split; [exact Hm|]. split; [exact Hk | now rewrite <- E].
Qed.

Lemma representable_0 : representable 0.
Proof.
  apply (representable_eq (inject_Z 0 * 2 ^ 0)); [reflexivity|].
  apply representable_scaled; [reflexivity | lia].
Qed.

(** A small integer multiple of a power of two. *)
Lemma representable_multiple (m k : Z) (c : Q) :
  (Z.abs m < 2 ^ 53)%Z -> (-1074 <= k)%Z -> c == inject_Z m * 2 ^ k ->
  representable c.
Proof.
  intros Hm Hk E. apply (representable_eq (inject_Z m * 2 ^ k)).
  - now symmetry.
  - now apply representable_scaled.
Qed.

Lemma pow2_neg_le_half (n : Z) : (n < 0)%Z -> 2 ^ n <= 1 # 2.
Proof.
  intros Hn.
  assert (H : 2 ^ n <= 2 ^ (-1)) by (apply pow2_le; lia).
  exact H.
Qed.

(** Division by the literal [4.0]. *)
Lemma quarter_spec (b : Q) : 4 * (b / 4) == b.
Proof. field. Qed.

Lemma pow2_quarter (a : Z) : 2 ^ a == 4 * 2 ^ (a - 2).
Proof.
  rewrite (pow2_split a (a - 2)) by lia.
  now replace (a - (a - 2))%Z with 2%Z by lia.
Qed.

(** *** Conversions *)

Lemma float_overflow_above : (2 ^ 1023 < float_overflow)%Z.
Proof. reflexivity. Qed.


Lemma float_of_int_in_range (n : Z) :
  (Z.abs n < float_overflow)%Z ->
  float_of_int n = Returns (round_double (inject_Z n)).
Proof.
  intros H. unfold float_of_int.
  destruct (Z.leb_spec float_overflow (Z.abs n)); [lia | reflexivity].
Qed.


Lemma pow2_int_in_range (a : Z) :
  (0 <= a <= 1023)%Z -> (Z.abs (2 ^ a) < float_overflow)%Z.
Proof.
  intros Ha. rewrite Z.abs_eq by (apply Z.pow_nonneg; lia).
  apply Z.le_lt_trans with (2 ^ 1023)%Z;
    [apply Z.pow_le_mono_r; lia | apply float_overflow_above].
Qed.


(** The call, when no conversion raises: the clamp of the rounded sum
    of [wait_time] and the jitter. *)
Lemma calculate_wait_for_retry_convertible (a : Z) (m u : Q) :
  convertible a ->
  calculate_wait_for_retry a m u =
  Returns (py_max 1 (py_min (jittered a u) m)).
Proof.
  intros [Hlo Hhi].
  unfold calculate_wait_for_retry, two_pow, jittered, jitter, wait_float.
  destruct (Z.leb_spec 0 a) as [Ha|Ha]; cbn [bind to_float].
  - rewrite (float_of_int_in_range (2 ^ a)) by (apply pow2_int_in_range; lia).
    reflexivity.
  - rewrite (float_of_int_in_range a) by lia. reflexivity.
Qed.


(** *** The value of [wait_time] *)

Lemma wait_float_nonneg (a : Z) : (0 <= a)%Z -> wait_float a == 2 ^ a.
Proof.
  intros Ha. unfold wait_float.
  destruct (Z.leb_spec 0 a); [|lia].
  rewrite <- (Zpower_Qpower 2 a Ha).
  apply round_double_exact.
  apply (representable_multiple 1 a); [reflexivity | lia|].
  rewrite (Zpower_Qpower 2 a Ha). symmetry. apply Qmult_1_l.
Qed.

Lemma wait_float_negative (a : Z) :
  (a < 0)%Z -> 0 <= wait_float a /\ wait_float a <= 1 # 2.
Proof.
  intros Ha. unfold wait_float.
  destruct (Z.leb_spec 0 a); [lia|].
  assert (Hx : round_double (inject_Z a) <= inject_Z (-1)).
  { apply round_double_le.
    - apply (representable_multiple (-1) 0); [reflexivity | lia | reflexivity].
    - rewrite <- Zle_Qle. lia. }
  apply Qfloor_resp_le in Hx. rewrite Qfloor_Z in Hx.
  apply round_double_between.
  - apply representable_0.
  - apply (representable_multiple 1 (-1)); [reflexivity | lia | reflexivity].
  - apply Qlt_le_weak, pow2_pos.
  - apply pow2_neg_le_half. lia.
Qed.

(** *** The jitter and the jittered wait *)

(** With a quarter [q] of [wait_time] that is a double, as are its
    small multiples, every step of the arithmetic is exact or stays
    between doubles: the jitter bound is [q], the width of the range
    [2 * q], the scaled draw between zero and [2 * q], the sampled
    jitter within [q] of zero and the rounded sum between three and
    five times [q]. *)
Lemma jittered_band (b q u : Q) :
  0 <= q -> b == 4 * q ->
  representable q -> representable (- q) -> representable (2 * q) ->
  representable (3 * q) -> representable (5 * q) ->
  unit_draw u ->
  let max_jitter := float_div b 4 in
  let width := float_sub max_jitter (- max_jitter) in
  let j := uniform (- max_jitter) max_jitter u in
  (max_jitter == q /\ width == 2 * q /\
   0 <= float_mul width u /\ float_mul width u <= 2 * q) /\
  (- q <= j /\ j <= q) /\
  (3 * q <= float_add b j /\ float_add b j <= 5 * q).
Proof.
  intros Hq Hb R1 Rm R2 R3 R5 [Hu0 Hu1] max_jitter width j.
  assert (Hmj : max_jitter == q).
  { unfold max_jitter, float_div.
    pose proof (quarter_spec b) as Hquarter.
    apply Qle_antisym;
      [apply round_double_le | apply round_double_ge]; try assumption; lra. }
  assert (Hd : width == 2 * q).
  { unfold width, float_sub.
    apply Qle_antisym;
      [apply round_double_le | apply round_double_ge]; try assumption; lra. }
  set (t := float_mul width u).
  assert (Ht : 0 <= t /\ t <= 2 * q).
  { unfold t, float_mul.
    assert (H0 : 0 <= width * u) by (apply Qmult_le_0_compat; lra).
    assert (H1 : width * u <= width * 1)
      by (apply Qmult_le_compat_nonneg; split; lra).
    apply round_double_between;
      [apply representable_0 | exact R2 | exact H0 | lra]. }
  assert (Hj : - q <= j /\ j <= q).
  { unfold j, uniform. fold width. fold t. unfold float_add.
    apply round_double_between; try assumption; lra. }
  split; [split; [exact Hmj | split; [exact Hd | exact Ht]]|].
  split; [exact Hj|].
  unfold float_add. apply round_double_between; try assumption; lra.
Qed.

Lemma jittered_nonneg (a : Z) (u : Q) :
  (0 <= a)%Z -> unit_draw u ->
  (- (2 ^ a / 4) <= jitter a u /\ jitter a u <= 2 ^ a / 4) /\
  ((3 # 4) * 2 ^ a <= jittered a u /\ jittered a u <= (5 # 4) * 2 ^ a).
Proof.
  intros Ha Hu.
  pose proof (wait_float_nonneg a Ha) as Hb.
  pose proof (pow2_quarter a) as H4.
  pose proof (pow2_pos (a - 2)) as Hpos.
  pose proof (quarter_spec (2 ^ a)) as Hquarter.
  assert (Hband := jittered_band (wait_float a) (2 ^ (a - 2)) u).
  cbv zeta in Hband. fold (jitter a u) in Hband. fold (jittered a u) in Hband.
  destruct Hband as [_ [[J1 J2] [W1 W2]]]; try assumption.
  - lra.
  - lra.
  - apply (representable_multiple 1 (a - 2)); [reflexivity | lia|].
    symmetry. apply Qmult_1_l.
  - apply (representable_multiple (-1) (a - 2)); [reflexivity | lia|].
    generalize (2 ^ (a - 2)). intros q. change (inject_Z (-1)) with (- (1)).
    ring.
  - apply (representable_multiple 2 (a - 2)); [reflexivity | lia | reflexivity].
  - apply (representable_multiple 3 (a - 2)); [reflexivity | lia | reflexivity].
  - apply (representable_multiple 5 (a - 2)); [reflexivity | lia | reflexivity].
  - revert J1 J2 W1 W2 H4 Hquarter.
    generalize (jitter a u) (jittered a u) (2 ^ (a - 2)) (2 ^ a / 4) (2 ^ a).
    intros j w q4 q b J1 J2 W1 W2 H4 Hquarter. repeat split; lra.
Qed.

(** For a negative attempt the rounded sum stays under three
    quarters. *)
Lemma jittered_negative (a : Z) (u : Q) :
  (a < 0)%Z -> unit_draw u -> jittered a u <= 3 # 4.
Proof.
  intros Ha [Hu0 Hu1].
  destruct (wait_float_negative a Ha) as [Hb0 Hb1].
  unfold jittered, jitter. set (b := wait_float a) in *.
  assert (R8 : representable (1 # 8))
    by (apply (representable_multiple 1 (-3)); [reflexivity | lia | reflexivity]).
  assert (R4 : representable (1 # 4))
    by (apply (representable_multiple 1 (-2)); [reflexivity | lia | reflexivity]).
  assert (R34 : representable (3 # 4))
    by (apply (representable_multiple 3 (-2)); [reflexivity | lia | reflexivity]).
  set (mj := float_div b 4).
  assert (Hmj : 0 <= mj /\ mj <= 1 # 8).
  { unfold mj, float_div. pose proof (quarter_spec b).
    apply round_double_between; try assumption; [apply representable_0 | lra | lra]. }
  unfold uniform.
  set (d := float_sub mj (- mj)).
  assert (Hd : 0 <= d /\ d <= 1 # 4).
  { unfold d, float_sub.
    apply round_double_between; try assumption; [apply representable_0 | lra | lra]. }
  set (t := float_mul d u).
  assert (Ht : t <= 1 # 4).
  { unfold t, float_mul. apply round_double_le; [exact R4|].
    assert (H1 : d * u <= d * 1)
      by (apply Qmult_le_compat_nonneg; split; lra).
    lra. }
  set (s := float_add (- mj) t).
  assert (Hs : s <= 1 # 4).
  { unfold s, float_add. apply round_double_le; [exact R4 | lra]. }
  unfold float_add. apply round_double_le; [exact R34 | lra].
Qed.

(** *** Rounding is monotone *)

Lemma round_half_even_monotone (a b : Q) :
  a <= b -> (round_half_even a <= round_half_even b)%Z.
Proof.
  intros Hab.
  pose proof (Qfloor_resp_le _ _ Hab) as Hf.
  pose proof (round_half_even_floor a) as Ha.
  pose proof (round_half_even_floor b) as Hb.
  destruct (Z.eq_dec (Qfloor a) (Qfloor b)) as [E|E]; [|lia].
  unfold round_half_even in *. rewrite <- E in *.
  set (f := Qfloor a) in *.
  destruct (Qcompare (a - inject_Z f) (1 # 2)) eqn:Ca;
    destruct (Qcompare (b - inject_Z f) (1 # 2)) eqn:Cb;
    try lia; try (destruct (Z.even f); lia); exfalso.
  - apply Qeq_alt in Ca. apply Qlt_alt in Cb. lra.
  - apply Qgt_alt in Ca. apply Qeq_alt in Cb. lra.
  - apply Qgt_alt in Ca. apply Qlt_alt in Cb. lra.
Qed.

Lemma Qabs_positive (x : Q) : ~ x == 0 -> 0 < Qabs x.
Proof.
  intros Hx. destruct (Qlt_le_dec 0 (Qabs x)) as [H|H]; [exact H|].
  exfalso. apply Hx. pose proof (Qabs_nonneg x) as H0.
  assert (E : Qabs x == 0) by lra.
  revert E. apply Qabs_case; intros ? E; lra.
Qed.

(** Two numbers with different spacings are separated by a power of
    two: the lower end of the binade of the larger one. *)
Lemma binade_gap (x y : Q) :
  ~ x == 0 -> ~ y == 0 -> (ulp_exponent x < ulp_exponent y)%Z ->
  exists e, (-1074 <= e)%Z /\ Qabs x < 2 ^ e /\ 2 ^ e <= Qabs y.
Proof.
  intros Hx Hy Hp. unfold ulp_exponent in Hp.
  pose proof (ilog2_lt _ (Qabs_positive x Hx)) as Hxu.
  pose proof (ilog2_le _ (Qabs_positive y Hy)) as Hyl.
  exists (ilog2 (Qabs y)). split; [lia|]. split; [|exact Hyl].
  apply Qlt_le_trans with (1 := Hxu). apply pow2_le. lia.
Qed.

Lemma representable_pow2 (e : Z) : (-1074 <= e)%Z -> representable (2 ^ e).
Proof.
  intros He. exists 1%Z, e. split; [reflexivity|]. split; [exact He|].
  symmetry. apply Qmult_1_l.
Qed.

Lemma representable_opp (c : Q) : representable c -> representable (- c).
Proof.
  intros (m & k & Hm & Hk & Hc). exists (- m)%Z, k.
  split; [now rewrite Z.abs_opp|]. split; [exact Hk|].
  rewrite Hc, inject_Z_opp. ring.
Qed.

Lemma round_double_monotone (x y : Q) :
  x <= y -> round_double x <= round_double y.
Proof.
  intros Hxy.
  destruct (Qeq_dec x 0) as [Hx|Hx].
  { rewrite (round_double_zero x Hx).
    apply round_double_ge; [exact representable_0 | lra]. }
  destruct (Qeq_dec y 0) as [Hy|Hy].
  { rewrite (round_double_zero y Hy).
    apply round_double_le; [exact representable_0 | lra]. }
  destruct (Z.lt_trichotomy (ulp_exponent x) (ulp_exponent y))
    as [Hp|[Hp|Hp]].
  - destruct (binade_gap x y Hx Hy Hp) as (e & He & Hxe & Hey).
    destruct (Qlt_le_dec y 0) as [Hneg|Hnn].
    + exfalso. rewrite (Qabs_neg y) in Hey by lra.
      rewrite (Qabs_neg x) in Hxe by lra. lra.
    + rewrite (Qabs_pos y) in Hey by exact Hnn.
      apply Qle_trans with (2 ^ e).
      * apply round_double_le; [apply representable_pow2, He|].
        pose proof (Qle_Qabs x). lra.
      * apply round_double_ge; [apply representable_pow2, He | exact Hey].
  - unfold round_double. rewrite Hp.
    apply Qmult_le_compat_r; [|apply Qlt_le_weak, pow2_pos].
    rewrite <- Zle_Qle. apply round_half_even_monotone.
    apply Qmult_le_compat_r; [exact Hxy|].
    apply Qlt_le_weak, Qinv_lt_0_compat, pow2_pos.
  - destruct (binade_gap y x Hy Hx Hp) as (e & He & Hye & Hex).
    destruct (Qlt_le_dec x 0) as [Hneg|Hnn].
    + rewrite (Qabs_neg x) in Hex by lra.
      apply Qle_trans with (- 2 ^ e).
      * apply round_double_le;
          [apply representable_opp, representable_pow2, He | lra].
      * apply round_double_ge;
          [apply representable_opp, representable_pow2, He|].
        pose proof (Qle_Qabs (- y)). rewrite Qabs_opp in H. lra.
    + exfalso. rewrite (Qabs_pos x) in Hex by exact Hnn.
      rewrite (Qabs_pos y) in Hye by lra. lra.
Qed.

(** *** Rounding goes to a nearest double *)






(** *** The claims *)

(** C1, as stated, fails twice.  With [max_wait] one half, which is
    positive, the first attempt waits one unit, more than [max_wait].
    And at attempt 1024, with [max_wait] 60, the call raises
    [OverflowError] and returns no value. *)
Lemma calculate_wait_for_retry_bounds_counterexample :
  ((0 <= 0)%Z /\ 0 < 1 # 2 /\ unit_draw (1 # 2) /\
   calculate_wait_for_retry 0 (1 # 2) (1 # 2) = Returns 1 /\
   ~ (1 <= 1 /\ 1 <= 1 # 2)) /\
  ((0 <= 1024)%Z /\ 0 < 60 /\ unit_draw (1 # 2) /\
   calculate_wait_for_retry 1024 60 (1 # 2) = RaisesOverflowError).
Proof.
  split.
  - split; [lia|]. split; [reflexivity|].
    split; [split; vm_compute; congruence|].
    split; [vm_compute; reflexivity|].
    intros [_ H]. vm_compute in H. apply H. reflexivity.
  - split; [lia|]. split; [reflexivity|].
    split; [split; vm_compute; congruence|].
    vm_compute. reflexivity.
Qed.

(** C1 (amended): for every attempt from 0 to 1023 and every
    [max_wait >= 1], whatever the draw, the call returns a value [v]
    with [1 <= v <= max_wait]. *)
Theorem calculate_wait_for_retry_bounds (attempt : Z) (max_wait u : Q) :
  (0 <= attempt <= 1023)%Z -> 1 <= max_wait -> unit_draw u ->
  exists v,
    calculate_wait_for_retry attempt max_wait u = Returns v /\
    1 <= v /\ v <= max_wait.
Proof.
  intros Ha Hm _.
  exists (py_max 1 (py_min (jittered attempt u) max_wait)).
  split.
  - apply calculate_wait_for_retry_convertible.
    unfold convertible. pose proof float_overflow_above.
    assert (0 < 2 ^ 1023)%Z by reflexivity. lia.
  - destruct (clamp_bounds (jittered attempt u) max_wait) as [H1 H2].
    split; [exact H1 | apply H2, Hm].
Qed.

Lemma calculate_wait_for_retry_bounds_witness :
  exists v,
    calculate_wait_for_retry 3 60 (1 # 4) = Returns v /\
    1 <= v /\ v <= 60.
Proof.
  apply (calculate_wait_for_retry_bounds 3 60 (1 # 4)).
  - lia.
  - vm_compute; congruence.
  - split; vm_compute; congruence.
Defined.

(** C6: at attempt 10 with [max_wait] 60 the result is exactly 60,
    whatever the draw. *)
Theorem calculate_wait_for_retry_saturates (u : Q) :
  unit_draw u -> calculate_wait_for_retry 10 60 u = Returns 60.
Proof.
  intros Hu.
  rewrite calculate_wait_for_retry_convertible by (split; [reflexivity | lia]).
  f_equal.
  destruct (jittered_nonneg 10 u ltac:(lia) Hu) as [_ [Hlo _]].
  set (w := jittered 10 u) in *.
  assert (Hw : 60 < w).
  { apply Qlt_le_trans with ((3 # 4) * 2 ^ 10); [reflexivity | exact Hlo]. }
  destruct (py_min_cases w 60) as [[_ ->]|[Hle _]].
  - reflexivity.
  - exfalso. apply (Qlt_not_le _ _ Hw Hle).
Qed.

Lemma calculate_wait_for_retry_saturates_witness :
  calculate_wait_for_retry 10 60 0 = Returns 60.
Proof.
  apply (calculate_wait_for_retry_saturates 0).
  split; vm_compute; congruence.
Defined.


(** The result for a negative attempt that converts: the lower clamp. *)
Lemma calculate_wait_for_retry_below_zero (a : Z) (m u : Q) :
  (- float_overflow < a < 0)%Z -> unit_draw u ->
  calculate_wait_for_retry a m u = Returns 1.
Proof.
  intros Ha Hu.
  rewrite calculate_wait_for_retry_convertible by (unfold convertible; lia).
  f_equal.
  pose proof (jittered_negative a u ltac:(lia) Hu) as Hw.
  set (w := jittered a u) in *.
  destruct (py_max_cases 1 (py_min w m)) as [[Hgt _]|[_ E]]; [|exact E].
  exfalso. destruct (py_min_cases w m) as [[H1 E]|[H1 E]];
    rewrite E in Hgt; lra.
Qed.



(** C9, as stated, fails: the attempt [-(2^1024)] is negative, but the
    call raises [OverflowError] when it converts the exponent. *)
Lemma calculate_wait_for_retry_negative_counterexample :
  (- 2 ^ 1024 < 0)%Z /\ 1 <= 60 /\ unit_draw (1 # 2) /\
  calculate_wait_for_retry (- 2 ^ 1024) 60 (1 # 2) = RaisesOverflowError.
Proof.
  split; [reflexivity|]. split; [vm_compute; congruence|].
  split; [split; vm_compute; congruence|].
  vm_compute. reflexivity.
Qed.

(** C9 (amended): for every negative attempt above [-(2^1024 - 2^970)]
    and [max_wait >= 1] the result is exactly 1, whatever the draw. *)
Theorem calculate_wait_for_retry_negative (attempt : Z) (max_wait u : Q) :
  (- float_overflow < attempt < 0)%Z -> 1 <= max_wait -> unit_draw u ->
  calculate_wait_for_retry attempt max_wait u = Returns 1.
Proof.
  intros Ha _ Hu. apply calculate_wait_for_retry_below_zero; assumption.
Qed.

Lemma calculate_wait_for_retry_negative_witness :
  calculate_wait_for_retry (-1) 60 (1 # 2) = Returns 1.
Proof.
  apply (calculate_wait_for_retry_negative (-1) 60 (1 # 2)).
  - split; [reflexivity | lia].
  - vm_compute; congruence.
  - split; vm_compute; congruence.
Defined.

End BackoffFacts.

(** ** Facts about the MIME matcher *)

Module MimeFacts.

Import Mime.
Local Open Scope string_scope.

Lemma append_assoc (a b c : string) : (a ++ b) ++ c = a ++ (b ++ c).
Proof. induction a as [|x a IH]; simpl; [reflexivity | now rewrite IH]. Qed.

Lemma append_empty_r (a : string) : a ++ "" = a.
Proof. induction a as [|x a IH]; simpl; [reflexivity | now rewrite IH]. Qed.

Lemma occurs_in_refl (p : string) : occurs_in p p.
Proof. exists "", "". simpl. now rewrite append_empty_r. Qed.

Lemma occurs_in_append_l (p a b : string) :
  occurs_in p a -> occurs_in p (a ++ b).
Proof.
  intros (pre & post & ->). exists pre, (post ++ b).
  now rewrite !append_assoc.
Qed.

Lemma occurs_in_append_r (p a b : string) :
  occurs_in p b -> occurs_in p (a ++ b).
Proof.
  intros (pre & post & ->). exists (a ++ pre), post.
  now rewrite !append_assoc.
Qed.


Lemma in_tuple_wildcard (accept provided : string) :
  in_tuple accept ["*"; provided] = true <->
  accept = "*" \/ accept = provided.
Proof.
  unfold in_tuple. simpl. rewrite orb_false_r, orb_true_iff.
  now rewrite !String.eqb_eq.
Qed.

(** [all] over a [zip] checks exactly the overlapping positions. *)
Lemma forallb_combine_nth {A B : Type} (f : A * B -> bool) (da : A) (db : B)
    (l1 : list A) (l2 : list B) :
  forallb f (combine l1 l2) = true <->
  forall i : nat,
    (i < Nat.min (List.length l1) (List.length l2))%nat ->
    f (nth i l1 da, nth i l2 db) = true.
Proof.
  revert l2. induction l1 as [|a l1 IH]; intros l2.
  - simpl. split; [intros _ i Hi; lia | reflexivity].
  - destruct l2 as [|b l2].
    + simpl. split; [intros _ i Hi; lia | reflexivity].
    + simpl. rewrite andb_true_iff, IH. split.
      * intros [Hhd Htl] [|i] Hi; [exact Hhd | apply Htl; lia].
      * intros H. split; [apply (H 0%nat); lia|].
        intros i Hi. apply (H (S i)). lia.
Qed.

(** The inner function decides the spec's matching rule. *)
Lemma _match_spec (pattern mime_type : string) :
  _match pattern mime_type = true <-> spec_matches pattern mime_type.
Proof.
  unfold _match, spec_matches.
  rewrite (forallb_combine_nth _ "" "").
  split; intros H i Hi; specialize (H i Hi); now apply in_tuple_wildcard.
Qed.

Lemma unsupported_nil_iff (accept_patterns : list string) :
  unsupported_patterns accept_patterns = [] <->
  forall p, In p accept_patterns -> char_in ";" p = false.
Proof.
  unfold unsupported_patterns. split.
  - intros E p Hin. destruct (char_in ";" p) eqn:Ep; [|reflexivity].
    assert (Hf : In p (filter (char_in ";") accept_patterns))
      by (apply filter_In; split; assumption).
    rewrite E in Hf. destruct Hf.
  - intros H. induction accept_patterns as [|p l IH]; [reflexivity|].
    simpl. rewrite (H p (or_introl eq_refl)).
    apply IH. intros q Hq. apply H. now right.
Qed.

(** The three exits of the function. *)
Lemma acceptable_invalid (accept_patterns : list string) (mime_type : string) :
  char_in "/" mime_type = false ->
  acceptable_mime_type accept_patterns mime_type =
  Raise (InvalidUserInputError (invalid_mime_message mime_type)).
Proof. intros H. unfold acceptable_mime_type. now rewrite H. Qed.

Lemma acceptable_unsupported (accept_patterns : list string)
    (mime_type : string) :
  char_in "/" mime_type = true ->
  unsupported_patterns accept_patterns <> [] ->
  acceptable_mime_type accept_patterns mime_type =
  Raise (ConfigurationValueError
           (unsupported_message (unsupported_patterns accept_patterns))).
Proof.
  intros H Hne. unfold acceptable_mime_type. rewrite H. simpl.
  destruct (unsupported_patterns accept_patterns); [congruence | reflexivity].
Qed.

Lemma acceptable_matching (accept_patterns : list string)
    (mime_type : string) :
  char_in "/" mime_type = true ->
  unsupported_patterns accept_patterns = [] ->
  acceptable_mime_type accept_patterns mime_type =
  Return (existsb (fun pattern => _match pattern mime_type) accept_patterns).
Proof.
  intros H E. unfold acceptable_mime_type. rewrite H. simpl. now rewrite E.
Qed.

Lemma existsb_Permutation {A : Type} (f : A -> bool) (l l' : list A) :
  Permutation l l' -> existsb f l = existsb f l'.
Proof.
  induction 1 as [|x l l' _ IH|x y l|l l' l'' _ IH1 _ IH2]; simpl.
  - reflexivity.
  - now rewrite IH.
  - destruct (f x), (f y); reflexivity.
  - now rewrite IH1.
Qed.

(** C2, as stated, fails: the pattern [text] has no separator, yet the
    call returns a boolean instead of raising. *)
Lemma acceptable_mime_type_pattern_separator_counterexample :
  In "text" ["text"] /\ char_in "/" "text" = false /\
  acceptable_mime_type ["text"] "text/plain" = Return true /\
  ~ raises (acceptable_mime_type ["text"] "text/plain").
Proof.
  split; [left; reflexivity|].
  split; [reflexivity|].
  split; [reflexivity|].
  intros H. exact H.
Qed.

(** C2 (amended): a call is rejected with an error, before any
    matching, exactly when [mime_type] has no separator or some pattern
    contains a semicolon; a pattern without the separator is not
    rejected, and every other call returns the boolean match result. *)
Theorem acceptable_mime_type_rejects_iff
    (accept_patterns : list string) (mime_type : string) :
  (raises (acceptable_mime_type accept_patterns mime_type) <->
   char_in "/" mime_type = false \/
   exists p, In p accept_patterns /\ char_in ";" p = true) /\
  (~ raises (acceptable_mime_type accept_patterns mime_type) ->
   acceptable_mime_type accept_patterns mime_type =
   Return (existsb (fun pattern => _match pattern mime_type)
                   accept_patterns)).
Proof.
  destruct (char_in "/" mime_type) eqn:Hslash.
  - destruct (unsupported_patterns accept_patterns) as [|q l] eqn:Hbad.
    + rewrite (acceptable_matching _ _ Hslash Hbad). simpl.
      split; [|reflexivity].
      split; [intros [] | intros [Habs | (p & Hin & Hp)]]; [discriminate|].
      rewrite (proj1 (unsupported_nil_iff _) Hbad p Hin) in Hp. discriminate.
    + assert (Hne : unsupported_patterns accept_patterns <> [])
        by (rewrite Hbad; discriminate).
      rewrite (acceptable_unsupported _ _ Hslash Hne). simpl.
      split; [|intros H; exfalso; apply H; exact I].
      split; [intros _ | intros _; exact I].
      right. exists q.
      apply (filter_In (char_in ";")). fold (unsupported_patterns accept_patterns).
      rewrite Hbad. now left.
  - rewrite (acceptable_invalid _ _ Hslash). simpl.
    split; [|intros H; exfalso; apply H; exact I].
    split; [intros _; now left | intros _; exact I].
Qed.

(** C3: a [mime_type] without the separator raises the invalid-input
    error whatever the patterns are, those with a semicolon included:
    the check comes first. *)
Theorem acceptable_mime_type_invalid_first
    (accept_patterns : list string) (mime_type : string) :
  char_in "/" mime_type = false ->
  acceptable_mime_type accept_patterns mime_type =
  Raise (InvalidUserInputError (invalid_mime_message mime_type)).
Proof. apply acceptable_invalid. Qed.

Lemma acceptable_mime_type_invalid_first_witness :
  acceptable_mime_type ["text/plain; q=0.9"; "a;b"] "textplain" =
  Raise (InvalidUserInputError (invalid_mime_message "textplain")).
Proof.
  apply (acceptable_mime_type_invalid_first
           ["text/plain; q=0.9"; "a;b"] "textplain").
  reflexivity.
Defined.

(** C4: for a [mime_type] with the separator and patterns free of
    semicolons the call returns a boolean, which is true exactly when
    some pattern matches by the spec's position-by-position rule on the
    overlap of the two splits; on the empty sequence it returns false. *)
Theorem acceptable_mime_type_any_match
    (accept_patterns : list string) (mime_type : string) :
  char_in "/" mime_type = true ->
  (forall p, In p accept_patterns -> char_in ";" p = false) ->
  (exists b : bool,
     acceptable_mime_type accept_patterns mime_type = Return b /\
     (b = true <->
      exists p, In p accept_patterns /\ spec_matches p mime_type)) /\
  acceptable_mime_type [] mime_type = Return false.
Proof.
  intros Hslash Hfree. split.
  - exists (existsb (fun pattern => _match pattern mime_type) accept_patterns).
    split.
    + apply acceptable_matching; [exact Hslash|].
      apply unsupported_nil_iff, Hfree.
    + rewrite existsb_exists. split.
      * intros (p & Hin & Hm). exists p. split; [exact Hin|].
        apply _match_spec, Hm.
      * intros (p & Hin & Hm). exists p. split; [exact Hin|].
        apply _match_spec, Hm.
  - apply acceptable_matching; [exact Hslash | reflexivity].
Qed.

Lemma acceptable_mime_type_any_match_witness :
  (exists b : bool,
     acceptable_mime_type ["text/*"; "a/b/c"] "text/html" = Return b /\
     (b = true <->
      exists p, In p ["text/*"; "a/b/c"] /\ spec_matches p "text/html")) /\
  acceptable_mime_type [] "text/html" = Return false.
Proof.
  apply (acceptable_mime_type_any_match ["text/*"; "a/b/c"] "text/html").
  - reflexivity.
  - intros p [<-|[<-|[]]]; reflexivity.
Defined.



(** C8: for a [mime_type] with the separator and patterns free of
    semicolons, every permutation of the patterns gives the same
    boolean. *)
Theorem acceptable_mime_type_order_irrelevant
    (accept_patterns permuted : list string) (mime_type : string) :
  char_in "/" mime_type = true ->
  (forall p, In p accept_patterns -> char_in ";" p = false) ->
  Permutation accept_patterns permuted ->
  acceptable_mime_type permuted mime_type =
  acceptable_mime_type accept_patterns mime_type /\
  exists b : bool, acceptable_mime_type accept_patterns mime_type = Return b.
Proof.
  intros Hslash Hfree Hperm.
  assert (Hfree' : forall p, In p permuted -> char_in ";" p = false).
  { intros p Hin. apply Hfree.
    apply (Permutation_in p (Permutation_sym Hperm) Hin). }
  rewrite (acceptable_matching permuted _ Hslash
             (proj2 (unsupported_nil_iff _) Hfree')).
  rewrite (acceptable_matching accept_patterns _ Hslash
             (proj2 (unsupported_nil_iff _) Hfree)).
  split; [|eexists; reflexivity].
  f_equal. symmetry. apply existsb_Permutation, Hperm.
Qed.

Lemma acceptable_mime_type_order_irrelevant_witness :
  acceptable_mime_type ["text/*"; "image/png"] "text/html" =
  acceptable_mime_type ["image/png"; "text/*"] "text/html" /\
  exists b : bool,
    acceptable_mime_type ["image/png"; "text/*"] "text/html" = Return b.
Proof.
  apply (acceptable_mime_type_order_irrelevant
           ["image/png"; "text/*"] ["text/*"; "image/png"] "text/html").
  - reflexivity.
  - intros p [<-|[<-|[]]]; reflexivity.
  - apply perm_swap.
Defined.

(** C10: a [mime_type] with the separator is never reported as invalid
    input, whatever else it contains; with patterns free of semicolons
    it goes to matching, where its components are compared literally:
    a candidate component that is a star is accepted only by a pattern
    component that is a star.  So it is for the candidates
    [text/plain; q=1] and [text/*]. *)
Theorem acceptable_mime_type_candidate_literal
    (accept_patterns : list string) (mime_type : string) :
  char_in "/" mime_type = true ->
  (forall msg, acceptable_mime_type accept_patterns mime_type <>
               Raise (InvalidUserInputError msg)) /\
  ((forall p, In p accept_patterns -> char_in ";" p = false) ->
   acceptable_mime_type accept_patterns mime_type =
   Return (existsb (fun pattern => _match pattern mime_type)
                   accept_patterns)) /\
  (forall accept, in_tuple accept ["*"; "*"] = true <-> accept = "*") /\
  acceptable_mime_type ["text/plain"] "text/plain; q=1" = Return false /\
  acceptable_mime_type ["text/*"] "text/plain; q=1" = Return true /\
  acceptable_mime_type ["text/plain"] "text/*" = Return false /\
  acceptable_mime_type ["text/*"] "text/*" = Return true.
Proof.
  intros Hslash. split; [|split; [|split]].
  - intros msg. unfold acceptable_mime_type. rewrite Hslash. simpl.
    destruct (unsupported_patterns accept_patterns); discriminate.
  - intros Hfree. apply acceptable_matching; [exact Hslash|].
    apply unsupported_nil_iff, Hfree.
  - intros accept. rewrite in_tuple_wildcard. tauto.
  - repeat split; reflexivity.
Qed.

Lemma acceptable_mime_type_candidate_literal_witness :
  acceptable_mime_type ["text/*"] "text/plain; q=1" =
  Return (existsb (fun pattern => _match pattern "text/plain; q=1")
                  ["text/*"]).
Proof.
  assert (Hslash : char_in "/" "text/plain; q=1" = true) by reflexivity.
  destruct (acceptable_mime_type_candidate_literal
              ["text/*"] "text/plain; q=1" Hslash) as [_ [Hgo _]].
  apply Hgo. intros p [<-|[]]. reflexivity.
Defined.

End MimeFacts.

(** ** Further laws of the back-off calculator *)

Module BackoffLaws.

Import Backoff BackoffFacts.
Local Open Scope Q_scope.

(** The clamp is monotone in the clamped value and in the bound. *)
Lemma clamp_monotone (w w' m m' : Q) :
  w <= w' -> m <= m' ->
  py_max 1 (py_min w m) <= py_max 1 (py_min w' m').
Proof.
  intros Hw Hm.
  destruct (py_min_cases w m) as [[H1 ->]|[H1 ->]];
    destruct (py_min_cases w' m') as [[H2 ->]|[H2 ->]];
    match goal with
    | |- py_max 1 ?a <= py_max 1 ?b =>
        destruct (py_max_cases 1 a) as [[H3 ->]|[H3 ->]];
        destruct (py_max_cases 1 b) as [[H4 ->]|[H4 ->]]
    end; lra.
Qed.

Lemma convertible_nonneg (a : Z) :
  (0 <= a <= 1023)%Z -> convertible a.
Proof.
  intros Ha. unfold convertible. pose proof float_overflow_above.
  assert (0 < 2 ^ 1023)%Z by reflexivity. lia.
Qed.

Lemma wait_float_nonnegative (a : Z) : 0 <= wait_float a.
Proof.
  destruct (Z_lt_le_dec a 0) as [Ha|Ha].
  - apply (wait_float_negative a Ha).
  - rewrite (wait_float_nonneg a Ha). apply Qlt_le_weak, pow2_pos.
Qed.

(** A larger draw gives a larger rounded sum. *)
Lemma jittered_monotone_draw (a : Z) (u u' : Q) :
  u <= u' -> jittered a u <= jittered a u'.
Proof.
  intros Hu. unfold jittered, jitter, uniform.
  pose proof (wait_float_nonnegative a) as Hb.
  set (b := wait_float a) in *.
  set (mj := float_div b 4).
  assert (Hmj : 0 <= mj).
  { unfold mj, float_div. pose proof (quarter_spec b).
    apply round_double_ge; [apply representable_0 | lra]. }
  set (d := float_sub mj (- mj)).
  assert (Hd : 0 <= d).
  { unfold d, float_sub. apply round_double_ge; [apply representable_0 | lra]. }
  unfold float_add, float_mul.
  apply round_double_monotone, Qplus_le_r.
  apply round_double_monotone, Qplus_le_r.
  apply round_double_monotone.
  setoid_replace (d * u) with (u * d) by ring.
  setoid_replace (d * u') with (u' * d) by ring.
  apply Qmult_le_compat_r; assumption.
Qed.

(** For one draw and one bound, a later attempt never waits less than
    an earlier one, as long as both attempts convert to a double. *)
Theorem calculate_wait_for_retry_monotone_attempt
    (attempt later : Z) (max_wait u : Q) :
  unit_draw u -> convertible attempt -> convertible later ->
  (attempt <= later)%Z ->
  exists v v',
    calculate_wait_for_retry attempt max_wait u = Returns v /\
    calculate_wait_for_retry later max_wait u = Returns v' /\
    v <= v'.
Proof.
  intros Hu Ha Hl Hle.
  exists (py_max 1 (py_min (jittered attempt u) max_wait)),
         (py_max 1 (py_min (jittered later u) max_wait)).
  split; [apply calculate_wait_for_retry_convertible, Ha|].
  split; [apply calculate_wait_for_retry_convertible, Hl|].
  destruct (Z_lt_le_dec attempt 0) as [Hneg|Hnn].
  - pose proof (calculate_wait_for_retry_below_zero attempt max_wait u) as E.
    rewrite (calculate_wait_for_retry_convertible _ _ _ Ha) in E.
    unfold convertible in Ha.
    injection (E ltac:(lia) Hu) as ->.
    apply clamp_bounds.
  - destruct (Z.eq_dec attempt later) as [->|Hne]; [apply Qle_refl|].
    apply clamp_monotone; [|apply Qle_refl].
    destruct (jittered_nonneg attempt u Hnn Hu) as [_ [_ Hhi]].
    destruct (jittered_nonneg later u ltac:(lia) Hu) as [_ [Hlo _]].
    assert (Hpow : 2 * 2 ^ attempt <= 2 ^ later).
    { apply Qle_trans with (2 ^ (attempt + 1)); [|apply pow2_le; lia].
      rewrite Qpower_plus by (intros E; discriminate E).
      generalize (2 ^ attempt). intros b. change (2 ^ 1) with 2. lra. }
    pose proof (pow2_pos attempt) as Hpos.
    revert Hhi Hlo Hpow Hpos.
    generalize (jittered attempt u) (jittered later u) (2 ^ attempt) (2 ^ later).
    intros w w' b b' Hhi Hlo Hpow Hpos. lra.
Qed.

Lemma calculate_wait_for_retry_monotone_attempt_witness :
  exists v v',
    calculate_wait_for_retry 2 60 (1 # 4) = Returns v /\
    calculate_wait_for_retry 5 60 (1 # 4) = Returns v' /\
    v <= v'.
Proof.
  apply (calculate_wait_for_retry_monotone_attempt 2 5 60 (1 # 4)).
  - split; vm_compute; congruence.
  - split; [reflexivity | lia].
  - split; [reflexivity | lia].
  - lia.
Defined.

(** For one attempt that converts to a double, a larger bound or a
    larger draw never gives a shorter wait. *)
Theorem calculate_wait_for_retry_monotone_bound_draw
    (attempt : Z) (max_wait max_wait' u u' : Q) :
  convertible attempt -> max_wait <= max_wait' -> u <= u' ->
  exists v v',
    calculate_wait_for_retry attempt max_wait u = Returns v /\
    calculate_wait_for_retry attempt max_wait' u' = Returns v' /\
    v <= v'.
Proof.
  intros Ha Hm Hu.
  exists (py_max 1 (py_min (jittered attempt u) max_wait)),
         (py_max 1 (py_min (jittered attempt u') max_wait')).
  split; [apply calculate_wait_for_retry_convertible, Ha|].
  split; [apply calculate_wait_for_retry_convertible, Ha|].
  apply clamp_monotone; [apply jittered_monotone_draw, Hu | exact Hm].
Qed.

Lemma calculate_wait_for_retry_monotone_bound_draw_witness :
  exists v v',
    calculate_wait_for_retry 4 10 (1 # 4) = Returns v /\
    calculate_wait_for_retry 4 60 (3 # 4) = Returns v' /\
    v <= v'.
Proof.
  apply (calculate_wait_for_retry_monotone_bound_draw 4 10 60 (1 # 4) (3 # 4)).
  - split; [reflexivity | lia].
  - vm_compute; congruence.
  - vm_compute; congruence.
Defined.

(** With a bound of at most one, zero and negative bounds included, the
    lower clamp decides: the wait is exactly 1 for every attempt that
    converts to a double and every draw. *)
Theorem calculate_wait_for_retry_small_bound
    (attempt : Z) (max_wait u : Q) :
  convertible attempt -> max_wait <= 1 ->
  calculate_wait_for_retry attempt max_wait u = Returns 1.
Proof.
  intros Ha Hm. rewrite (calculate_wait_for_retry_convertible _ _ _ Ha).
  f_equal. set (w := jittered attempt u).
  destruct (py_max_cases 1 (py_min w max_wait)) as [[Hgt _]|[_ E]];
    [|exact E].
  exfalso. destruct (py_min_cases w max_wait) as [[H1 E]|[H1 E]];
    rewrite E in Hgt; lra.
Qed.

Lemma calculate_wait_for_retry_small_bound_witness :
  calculate_wait_for_retry 5 0 (1 # 2) = Returns 1.
Proof.
  apply (calculate_wait_for_retry_small_bound 5 0 (1 # 2)).
  - split; [reflexivity | lia].
  - vm_compute; congruence.
Defined.

(** Saturation in general: for an attempt from 0 to 1023, once three
    quarters of [2^attempt] exceed a bound of at least one, the wait
    equals the bound, whatever the draw. *)
Theorem calculate_wait_for_retry_saturation
    (attempt : Z) (max_wait u : Q) :
  (0 <= attempt <= 1023)%Z -> unit_draw u ->
  1 <= max_wait -> max_wait < (3 # 4) * 2 ^ attempt ->
  exists v,
    calculate_wait_for_retry attempt max_wait u = Returns v /\
    v == max_wait.
Proof.
  intros Ha Hu Hm Hbig.
  exists (py_max 1 (py_min (jittered attempt u) max_wait)).
  split; [apply calculate_wait_for_retry_convertible, convertible_nonneg, Ha|].
  destruct (jittered_nonneg attempt u ltac:(lia) Hu) as [_ [Hlo _]].
  set (w := jittered attempt u) in *.
  assert (Hw : max_wait < w)
    by (apply Qlt_le_trans with (1 := Hbig); exact Hlo).
  destruct (py_min_cases w max_wait) as [[_ ->]|[Hle _]].
  - destruct (py_max_cases 1 max_wait) as [[_ ->]|[Hle ->]]; lra.
  - exfalso. apply (Qlt_not_le _ _ Hw Hle).
Qed.

Lemma calculate_wait_for_retry_saturation_witness :
  exists v,
    calculate_wait_for_retry 7 90 (1 # 3) = Returns v /\ v == 90.
Proof.
  apply (calculate_wait_for_retry_saturation 7 90 (1 # 3)).
  - lia.
  - split; vm_compute; congruence.
  - vm_compute; congruence.
  - vm_compute; congruence.
Defined.

(** No clamping in the middle range: for an attempt from 0 to 1023,
    when three quarters of [2^attempt] are at least one and five
    quarters of it at most the bound, the wait is the sum of
    [2^attempt] and the sampled jitter, rounded to a double. *)
Theorem calculate_wait_for_retry_unclamped
    (attempt : Z) (max_wait u : Q) :
  (0 <= attempt <= 1023)%Z -> unit_draw u ->
  1 <= (3 # 4) * 2 ^ attempt -> (5 # 4) * 2 ^ attempt <= max_wait ->
  exists v,
    calculate_wait_for_retry attempt max_wait u = Returns v /\
    v == round_double (2 ^ attempt + jitter attempt u).
Proof.
  intros Ha Hu Hlow Hhigh.
  exists (py_max 1 (py_min (jittered attempt u) max_wait)).
  split; [apply calculate_wait_for_retry_convertible, convertible_nonneg, Ha|].
  destruct (jittered_nonneg attempt u ltac:(lia) Hu) as [_ [Hlo Hhi]].
  assert (Hsum : jittered attempt u ==
                 round_double (2 ^ attempt + jitter attempt u)).
  { unfold jittered, float_add.
    pose proof (wait_float_nonneg attempt ltac:(lia)) as Hb.
    apply Qle_antisym; apply round_double_monotone; lra. }
  rewrite <- Hsum.
  set (w := jittered attempt u) in *.
  revert Hlow Hhigh Hlo Hhi. generalize (2 ^ attempt).
  intros b Hlow Hhigh Hlo Hhi.
  destruct (py_min_cases w max_wait) as [[H1 ->]|[H1 ->]];
    [destruct (py_max_cases 1 max_wait) as [[H2 ->]|[H2 ->]]
    |destruct (py_max_cases 1 w) as [[H2 ->]|[H2 ->]]]; lra.
Qed.

Lemma calculate_wait_for_retry_unclamped_witness :
  exists v,
    calculate_wait_for_retry 3 60 (1 # 4) = Returns v /\
    v == round_double (2 ^ 3 + jitter 3 (1 # 4)).
Proof.
  apply (calculate_wait_for_retry_unclamped 3 60 (1 # 4)).
  - lia.
  - split; vm_compute; congruence.
  - vm_compute; congruence.
  - vm_compute; congruence.
Defined.



End BackoffLaws.

(** ** Further laws of the MIME matcher *)

Module MimeLaws.

Import Mime MimeShape MimeFacts.
Local Open Scope string_scope.

Lemma char_in_app (c : ascii) (a b : string) :
  char_in c (a ++ b) = char_in c a || char_in c b.
Proof.
  induction a as [|x a IH]; simpl; [reflexivity|].
  destruct (Ascii.eqb c x); [reflexivity | exact IH].
Qed.

Lemma split_nonempty (sep : ascii) (s : string) : split sep s <> [].
Proof.
  destruct s as [|c s]; simpl; [discriminate|].
  destruct (Ascii.eqb c sep); [discriminate|].
  destruct (split sep s); discriminate.
Qed.

(** Without the separator the text is its only piece. *)
Lemma split_no_sep (sep : ascii) (s : string) :
  char_in sep s = false -> split sep s = [s].
Proof.
  induction s as [|c s IH]; simpl; [reflexivity|].
  rewrite (Ascii.eqb_sym sep c).
  destruct (Ascii.eqb c sep); [discriminate|].
  intros H. now rewrite (IH H).
Qed.

(** A separator between two texts puts the pieces of the first before
    the pieces of the second. *)
Lemma split_app_sep (sep : ascii) (a b : string) :
  split sep (a ++ String sep b) = (split sep a ++ split sep b)%list.
Proof.
  induction a as [|c a IH]; simpl.
  - now rewrite Ascii.eqb_refl.
  - destruct (Ascii.eqb c sep); [now rewrite IH|].
    rewrite IH. destruct (split sep a) as [|h t] eqn:E; [|reflexivity].
    exfalso. exact (split_nonempty sep a E).
Qed.

(** Joining the pieces with the separator gives the text back. *)
Lemma join_split (sep : ascii) (s : string) :
  String.concat (String sep "") (split sep s) = s.
Proof.
  induction s as [|c s IH]; [reflexivity|].
  simpl split. destruct (Ascii.eqb c sep) eqn:Ec.
  - apply Ascii.eqb_eq in Ec. subst c.
    destruct (split sep s) as [|h t] eqn:E;
      [exfalso; exact (split_nonempty sep s E)|].
    change (String.concat (String sep "") ("" :: h :: t))
      with (String sep (String.concat (String sep "") (h :: t))).
    now rewrite IH.
  - destruct (split sep s) as [|h t] eqn:E;
      [exfalso; exact (split_nonempty sep s E)|].
    destruct t as [|h' t].
    + simpl in *. now rewrite IH.
    + change (String.concat (String sep "") (String c h :: h' :: t))
        with (String c (String.concat (String sep "") (h :: h' :: t))).
      now rewrite IH.
Qed.

Lemma mime_of_split (t s : string) :
  char_in "/" t = false -> char_in "/" s = false ->
  split "/" (mime_of t s) = [t; s].
Proof.
  intros Ht Hs. unfold mime_of.
  change (t ++ "/" ++ s) with (t ++ String "/" s).
  now rewrite split_app_sep, (split_no_sep _ _ Ht), (split_no_sep _ _ Hs).
Qed.

Lemma mime_of_has_separator (t s : string) :
  char_in "/" (mime_of t s) = true.
Proof.
  unfold mime_of. rewrite char_in_app. simpl. apply orb_true_r.
Qed.

Lemma _match_pairs (pt ps t s : string) :
  char_in "/" pt = false -> char_in "/" ps = false ->
  char_in "/" t = false -> char_in "/" s = false ->
  _match (mime_of pt ps) (mime_of t s) = pair_accepts (pt, ps) (t, s).
Proof.
  intros Hpt Hps Ht Hs. unfold _match.
  rewrite (mime_of_split _ _ Hpt Hps), (mime_of_split _ _ Ht Hs).
  unfold pair_accepts, component_accepts, in_tuple. simpl.
  now rewrite !orb_false_r, andb_true_r.
Qed.

(** All positions agree when the pieces are compared with themselves,
    whatever follows on one side. *)
Lemma forallb_combine_prefix (l l1 l2 : list string) :
  l1 = [] \/ l2 = [] ->
  forallb (fun '(accept, provided) => in_tuple accept ["*"; provided])
          (combine (l ++ l1) (l ++ l2)) = true.
Proof.
  intros Hcut. induction l as [|x l IH]; cbn [app combine forallb].
  - destruct Hcut as [-> | ->]; [reflexivity|].
    destruct l1; reflexivity.
  - apply andb_true_iff. split; [|exact IH].
    apply in_tuple_wildcard. now right.
Qed.

Lemma _match_refl (s : string) : _match s s = true.
Proof.
  unfold _match.
  rewrite <- (app_nil_r (split "/" s)).
  apply forallb_combine_prefix. now left.
Qed.

Lemma split_pieces_plain (sep : ascii) (s p : string) :
  In p (split sep s) -> char_in sep p = false.
Proof.
  revert p. induction s as [|c s IH]; intros p; simpl.
  - intros [<-|[]]. reflexivity.
  - destruct (Ascii.eqb c sep) eqn:Ec.
    + intros [<-|Hin]; [reflexivity | apply IH, Hin].
    + destruct (split sep s) as [|h t]; simpl.
      * intros [<-|[]]. simpl. rewrite (Ascii.eqb_sym sep c), Ec. reflexivity.
      * intros [<-|Hin].
        -- simpl. rewrite (Ascii.eqb_sym sep c), Ec.
           apply IH. now left.
        -- apply IH. now right.
Qed.

Lemma plain_patterns_unsupported (accept_patterns : list string) :
  (forall p, In p accept_patterns -> char_in ";" p = false) ->
  unsupported_patterns accept_patterns = [].
Proof. apply unsupported_nil_iff. Qed.

Lemma wildcards_match (l m : list string) :
  (forall a, In a l -> a = "*") ->
  forallb (fun '(accept, provided) => in_tuple accept ["*"; provided])
          (combine l m) = true.
Proof.
  revert m. induction l as [|a l IH]; intros m Hall; [reflexivity|].
  destruct m as [|b m]; [reflexivity|].
  cbn [combine forallb]. apply andb_true_iff. split.
  - apply in_tuple_wildcard. left. apply Hall. now left.
  - apply IH. intros x Hx. apply Hall. now right.
Qed.

(** [split] and [join] are inverse on the pieces: the split of a text
    is never empty, no piece holds the separator, and joining the
    pieces with the separator restores the text. *)
Theorem split_join_roundtrip (s : string) :
  split "/" s <> [] /\
  (forall p, In p (split "/" s) -> char_in "/" p = false) /\
  String.concat "/" (split "/" s) = s.
Proof.
  split; [apply split_nonempty|].
  split; [apply split_pieces_plain | apply (join_split "/")].
Qed.

(** On well-formed input the function is the textbook rule: patterns
    and candidate given by a type and a subtype are compared component
    by component, a pattern component accepting either as the wildcard
    or by equality. *)
Theorem acceptable_mime_type_two_part
    (patterns : list (string * string)) (type subtype : string) :
  (forall p, In p patterns ->
             plain_component (fst p) /\ plain_component (snd p)) ->
  char_in "/" type = false -> char_in "/" subtype = false ->
  acceptable_mime_type
    (map (fun p => mime_of (fst p) (snd p)) patterns)
    (mime_of type subtype) =
  Return (existsb (fun p => pair_accepts p (type, subtype)) patterns).
Proof.
  intros Hplain Ht Hs.
  rewrite acceptable_matching.
  - f_equal. induction patterns as [|[pt ps] l IH]; [reflexivity|].
    cbn [map existsb fst snd].
    destruct (Hplain (pt, ps) (or_introl eq_refl)) as [[Hpt _] [Hps _]].
    cbn [fst snd] in Hpt, Hps.
    rewrite (_match_pairs pt ps type subtype Hpt Hps Ht Hs).
    f_equal. apply IH. intros p Hp. apply Hplain. now right.
  - apply mime_of_has_separator.
  - apply plain_patterns_unsupported. intros p Hin.
    apply in_map_iff in Hin. destruct Hin as ([pt ps] & <- & Hin).
    destruct (Hplain _ Hin) as [[_ Hpt] [_ Hps]]. cbn [fst snd] in *.
    unfold mime_of. rewrite !char_in_app, Hpt, Hps. reflexivity.
Qed.

Lemma acceptable_mime_type_two_part_witness :
  acceptable_mime_type
    (map (fun p => mime_of (fst p) (snd p))
         [("image", "png"); ("text", "*")])
    (mime_of "text" "html") =
  Return (existsb (fun p => pair_accepts p ("text", "html"))
                  [("image", "png"); ("text", "*")]).
Proof.
  apply (acceptable_mime_type_two_part
           [("image", "png"); ("text", "*")] "text" "html").
  - intros p [<-|[<-|[]]]; repeat split; reflexivity.
  - reflexivity.
  - reflexivity.
Defined.

(** A pattern without the separator is compared with the first
    component only: it accepts a candidate exactly when it is the
    wildcard or the candidate starts with it and a separator. *)
Theorem acceptable_mime_type_bare_pattern (pattern mime_type : string) :
  char_in "/" pattern = false -> char_in ";" pattern = false ->
  char_in "/" mime_type = true ->
  (acceptable_mime_type [pattern] mime_type = Return true <->
   pattern = "*" \/ exists rest, mime_type = pattern ++ "/" ++ rest) /\
  (acceptable_mime_type [pattern] mime_type = Return true \/
   acceptable_mime_type [pattern] mime_type = Return false).
Proof.
  intros Hp Hsemi Hm.
  assert (Hun : unsupported_patterns [pattern] = [])
    by (apply plain_patterns_unsupported; intros q [<-|[]]; exact Hsemi).
  rewrite (acceptable_matching [pattern] mime_type Hm Hun).
  split; [|destruct (existsb _ _); [now left | now right]].
  cbn [existsb]. rewrite orb_false_r. unfold _match.
  rewrite (split_no_sep _ _ Hp).
  pose proof (join_split "/" mime_type) as Hjoin.
  pose proof (split_pieces_plain "/" mime_type) as Hpieces.
  destruct (split "/" mime_type) as [|h t] eqn:E;
    [exfalso; exact (split_nonempty _ _ E)|].
  cbn [combine forallb]. rewrite andb_true_r.
  split.
  - intros H. injection H as H. apply in_tuple_wildcard in H.
    destruct H as [H|H]; [now left|]. right. subst h.
    destruct t as [|h' t].
    + simpl in Hjoin. subst mime_type.
      rewrite Hp in Hm. discriminate.
    + exists (String.concat "/" (h' :: t)). symmetry. exact Hjoin.
  - intros [->|(rest & Hrest)]; [reflexivity|].
    f_equal. apply in_tuple_wildcard. right.
    assert (E' : split "/" mime_type = (split "/" pattern ++ split "/" rest)%list).
    { rewrite Hrest. change (pattern ++ "/" ++ rest)
        with (pattern ++ String "/" rest). apply split_app_sep. }
    rewrite (split_no_sep _ _ Hp), E in E'. simpl in E'. congruence.
Qed.

Lemma acceptable_mime_type_bare_pattern_witness :
  acceptable_mime_type ["text"] "text/plain" = Return true <->
  "text" = "*" \/ exists rest, "text/plain" = "text" ++ "/" ++ rest.
Proof.
  apply (acceptable_mime_type_bare_pattern "text" "text/plain");
    reflexivity.
Defined.

(** Shortest zip: a pattern accepts every candidate that continues it
    with further components, and a candidate is accepted by every
    pattern that continues it. *)
Theorem acceptable_mime_type_extra_components (shorter rest : string) :
  char_in "/" shorter = true ->
  char_in ";" shorter = false -> char_in ";" rest = false ->
  acceptable_mime_type [shorter] (shorter ++ "/" ++ rest) = Return true /\
  acceptable_mime_type [shorter ++ "/" ++ rest] shorter = Return true.
Proof.
  intros Hslash Hs Hr.
  assert (Hsplit : split "/" (shorter ++ "/" ++ rest) =
                   (split "/" shorter ++ split "/" rest)%list).
  { change (shorter ++ "/" ++ rest) with (shorter ++ String "/" rest).
    apply split_app_sep. }
  split.
  - rewrite acceptable_matching.
    + cbn [existsb]. rewrite orb_false_r. f_equal. unfold _match.
      rewrite Hsplit. rewrite <- (app_nil_r (split "/" shorter)) at 1.
      apply forallb_combine_prefix. now left.
    + rewrite char_in_app, Hslash. reflexivity.
    + apply plain_patterns_unsupported. intros q [<-|[]]. exact Hs.
  - rewrite acceptable_matching.
    + cbn [existsb]. rewrite orb_false_r. f_equal. unfold _match.
      rewrite Hsplit. rewrite <- (app_nil_r (split "/" shorter)) at 2.
      apply forallb_combine_prefix. now right.
    + exact Hslash.
    + apply plain_patterns_unsupported. intros q [<-|[]].
      rewrite !char_in_app, Hs, Hr. reflexivity.
Qed.

Lemma acceptable_mime_type_extra_components_witness :
  acceptable_mime_type ["a/b"] ("a/b" ++ "/" ++ "c") = Return true /\
  acceptable_mime_type ["a/b" ++ "/" ++ "c"] "a/b" = Return true.
Proof.
  apply (acceptable_mime_type_extra_components "a/b" "c"); reflexivity.
Defined.

(** A catch-all pattern, [*/*] or the bare [*], makes every candidate
    with a separator acceptable, whatever the other patterns are. *)
Theorem acceptable_mime_type_catch_all
    (accept_patterns : list string) (mime_type : string) :
  char_in "/" mime_type = true ->
  (forall p, In p accept_patterns -> char_in ";" p = false) ->
  In "*/*" accept_patterns \/ In "*" accept_patterns ->
  acceptable_mime_type accept_patterns mime_type = Return true.
Proof.
  intros Hm Hplain Hin.
  rewrite (acceptable_matching _ _ Hm (plain_patterns_unsupported _ Hplain)).
  f_equal. apply existsb_exists.
  destruct Hin as [Hin|Hin]; [exists "*/*" | exists "*"];
    (split; [exact Hin|]); unfold _match; apply wildcards_match;
    simpl; intuition.
Qed.

Lemma acceptable_mime_type_catch_all_witness :
  acceptable_mime_type ["image/png"; "*/*"] "application/json" = Return true.
Proof.
  apply (acceptable_mime_type_catch_all
           ["image/png"; "*/*"] "application/json").
  - reflexivity.
  - intros p [<-|[<-|[]]]; reflexivity.
  - left. right. left. reflexivity.
Defined.

(** A candidate that is itself among the patterns is accepted. *)
Theorem acceptable_mime_type_listed
    (accept_patterns : list string) (mime_type : string) :
  char_in "/" mime_type = true ->
  (forall p, In p accept_patterns -> char_in ";" p = false) ->
  In mime_type accept_patterns ->
  acceptable_mime_type accept_patterns mime_type = Return true.
Proof.
  intros Hm Hplain Hin.
  rewrite (acceptable_matching _ _ Hm (plain_patterns_unsupported _ Hplain)).
  f_equal. apply existsb_exists. exists mime_type.
  split; [exact Hin | apply _match_refl].
Qed.

Lemma acceptable_mime_type_listed_witness :
  acceptable_mime_type ["image/png"; "text/html"] "text/html" = Return true.
Proof.
  apply (acceptable_mime_type_listed ["image/png"; "text/html"] "text/html").
  - reflexivity.
  - intros p [<-|[<-|[]]]; reflexivity.
  - right. left. reflexivity.
Defined.

(** Two pattern lists put one after the other accept what either
    accepts: the result is the disjunction of the two results. *)
Theorem acceptable_mime_type_app
    (first second : list string) (mime_type : string) :
  char_in "/" mime_type = true ->
  (forall p, In p first -> char_in ";" p = false) ->
  (forall p, In p second -> char_in ";" p = false) ->
  exists b1 b2 : bool,
    acceptable_mime_type first mime_type = Return b1 /\
    acceptable_mime_type second mime_type = Return b2 /\
    acceptable_mime_type (first ++ second) mime_type = Return (b1 || b2).
Proof.
  intros Hm H1 H2.
  exists (existsb (fun pattern => _match pattern mime_type) first),
         (existsb (fun pattern => _match pattern mime_type) second).
  split; [apply acceptable_matching;
          [exact Hm | apply plain_patterns_unsupported, H1]|].
  split; [apply acceptable_matching;
          [exact Hm | apply plain_patterns_unsupported, H2]|].
  rewrite <- existsb_app. apply acceptable_matching; [exact Hm|].
  apply plain_patterns_unsupported. intros p Hin.
  apply in_app_or in Hin. destruct Hin; [apply H1 | apply H2]; assumption.
Qed.

Lemma acceptable_mime_type_app_witness :
  exists b1 b2 : bool,
    acceptable_mime_type ["image/png"] "text/html" = Return b1 /\
    acceptable_mime_type ["text/*"] "text/html" = Return b2 /\
    acceptable_mime_type (["image/png"] ++ ["text/*"]) "text/html" =
    Return (b1 || b2).
Proof.
  apply (acceptable_mime_type_app ["image/png"] ["text/*"] "text/html").
  - reflexivity.
  - intros p [<-|[]]; reflexivity.
  - intros p [<-|[]]; reflexivity.
Defined.

(** Only the set of patterns counts: two lists with the same entries,
    in any order and with any repetitions, give the same outcome when
    no entry has a semicolon. *)
Theorem acceptable_mime_type_same_entries
    (accept_patterns others : list string) (mime_type : string) :
  (forall p, In p accept_patterns -> char_in ";" p = false) ->
  (forall p, In p accept_patterns <-> In p others) ->
  acceptable_mime_type others mime_type =
  acceptable_mime_type accept_patterns mime_type.
Proof.
  intros Hplain Hsame.
  assert (Hplain' : forall p, In p others -> char_in ";" p = false)
    by (intros p Hin; apply Hplain, Hsame, Hin).
  destruct (char_in "/" mime_type) eqn:Hm.
  - rewrite !acceptable_matching;
      try assumption; try (apply plain_patterns_unsupported; assumption).
    f_equal. apply eq_true_iff_eq. rewrite !existsb_exists.
    split; intros (p & Hin & Hp); exists p; (split; [apply Hsame, Hin | exact Hp]).
  - now rewrite !acceptable_invalid.
Qed.

Lemma acceptable_mime_type_same_entries_witness :
  acceptable_mime_type ["text/*"; "image/png"; "text/*"] "text/html" =
  acceptable_mime_type ["image/png"; "text/*"] "text/html".
Proof.
  apply (acceptable_mime_type_same_entries
           ["image/png"; "text/*"] ["text/*"; "image/png"; "text/*"]
           "text/html").
  - intros p [<-|[<-|[]]]; reflexivity.
  - intros p. simpl. tauto.
Defined.

(** Adding patterns never turns an accepted candidate away: what a
    list accepts, every list containing its entries accepts, when the
    larger list has no entry with a semicolon. *)
Theorem acceptable_mime_type_monotone
    (accept_patterns larger : list string) (mime_type : string) :
  incl accept_patterns larger ->
  (forall p, In p larger -> char_in ";" p = false) ->
  acceptable_mime_type accept_patterns mime_type = Return true ->
  acceptable_mime_type larger mime_type = Return true.
Proof.
  intros Hincl Hplain Hacc.
  destruct (char_in "/" mime_type) eqn:Hm;
    [|rewrite (acceptable_invalid _ _ Hm) in Hacc; discriminate].
  rewrite (acceptable_matching _ _ Hm (plain_patterns_unsupported _ Hplain)).
  rewrite acceptable_matching in Hacc;
    [|exact Hm
     |apply plain_patterns_unsupported; intros p Hin; apply Hplain, Hincl, Hin].
  injection Hacc as Hacc. f_equal.
  apply existsb_exists in Hacc. destruct Hacc as (p & Hin & Hp).
  apply existsb_exists. exists p. split; [apply Hincl, Hin | exact Hp].
Qed.

Lemma acceptable_mime_type_monotone_witness :
  acceptable_mime_type ["image/png"; "text/*"; "a/b"] "text/html" =
  Return true.
Proof.
  apply (acceptable_mime_type_monotone
           ["text/*"] ["image/png"; "text/*"; "a/b"] "text/html").
  - intros p [<-|[]]. right. left. reflexivity.
  - intros p [<-|[<-|[<-|[]]]]; reflexivity.
  - reflexivity.
Defined.

(** The configuration error depends on the patterns with a semicolon
    alone: the other patterns and the candidate, as long as it has a
    separator, do not change it. *)
Theorem acceptable_mime_type_error_by_offenders
    (accept_patterns : list string) (mime_type mime_type' : string) :
  char_in "/" mime_type = true -> char_in "/" mime_type' = true ->
  unsupported_patterns accept_patterns <> [] ->
  acceptable_mime_type accept_patterns mime_type =
  acceptable_mime_type (unsupported_patterns accept_patterns) mime_type' /\
  raises (acceptable_mime_type accept_patterns mime_type).
Proof.
  intros Hm Hm' Hne.
  assert (Hidem : unsupported_patterns (unsupported_patterns accept_patterns)
                  = unsupported_patterns accept_patterns).
  { unfold unsupported_patterns. apply forallb_filter_id, forallb_filter. }
  rewrite (acceptable_unsupported _ _ Hm Hne).
  rewrite (acceptable_unsupported (unsupported_patterns accept_patterns)
             mime_type' Hm'); rewrite Hidem; [|exact Hne].
  split; [reflexivity | exact I].
Qed.

Lemma acceptable_mime_type_error_by_offenders_witness :
  acceptable_mime_type ["a/b"; "c/d; q=1"; "*/*"] "text/html" =
  acceptable_mime_type (unsupported_patterns ["a/b"; "c/d; q=1"; "*/*"])
                       "image/png" /\
  raises (acceptable_mime_type ["a/b"; "c/d; q=1"; "*/*"] "text/html").
Proof.
  apply (acceptable_mime_type_error_by_offenders
           ["a/b"; "c/d; q=1"; "*/*"] "text/html" "image/png").
  - reflexivity.
  - reflexivity.
  - discriminate.
Defined.

End MimeLaws.

(** ** Facts about the type assertion *)

Module TypeCheckFacts.

Import TypeCheck.
Local Open Scope string_scope.

Section WithObjects.

Variables value pytype : Type.
Variable type_of : value -> pytype.
Variable instance_of : value -> pytype -> bool.
Variable str_type : pytype -> string.
Variable repr_arg : type_arg pytype -> string.

Abbreviation isinstance := (isinstance value pytype instance_of).
Abbreviation type_check :=
  (type_check value pytype type_of instance_of str_type repr_arg).
Abbreviation default_message :=
  (default_message value pytype type_of str_type repr_arg).

Lemma type_check_pass (arg : value) (arg_type : type_arg pytype)
    (msg : option string) :
  isinstance arg arg_type = true -> type_check arg arg_type msg = Returns arg.
Proof. intros H. unfold TypeCheck.type_check. now rewrite H. Qed.

Lemma type_check_fail (arg : value) (arg_type : type_arg pytype)
    (msg : option string) :
  isinstance arg arg_type = false ->
  type_check arg arg_type msg =
  RaisesTypecheckError
    (match msg with
     | None => default_message arg arg_type
     | Some given => given
     end).
Proof. intros H. unfold TypeCheck.type_check. now rewrite H. Qed.

Lemma type_check_pass_iff (arg : value) (arg_type : type_arg pytype)
    (msg : option string) :
  type_check arg arg_type msg = Returns arg <->
  isinstance arg arg_type = true.
Proof.
  destruct (isinstance arg arg_type) eqn:E.
  - rewrite (type_check_pass _ _ _ E). tauto.
  - rewrite (type_check_fail _ _ _ E). split; discriminate.
Qed.

(** The assertion hands its argument back unchanged exactly when it is
    an instance; whatever it returns passes again, under any message;
    and a value that is no instance always raises. *)
Theorem type_check_returns_argument (arg : value)
    (arg_type : type_arg pytype) (msg : option string) :
  (type_check arg arg_type msg = Returns arg <->
   isinstance arg arg_type = true) /\
  (forall v, type_check arg arg_type msg = Returns v ->
             v = arg /\
             forall msg', type_check v arg_type msg' = Returns v) /\
  (isinstance arg arg_type = false ->
   exists text, type_check arg arg_type msg = RaisesTypecheckError text).
Proof.
  destruct (isinstance arg arg_type) eqn:E.
  - rewrite (type_check_pass _ _ _ E). split; [tauto|]. split.
    + intros v Hv. injection Hv as <-. split; [reflexivity|].
      intros msg'. apply type_check_pass, E.
    + discriminate.
  - rewrite (type_check_fail _ _ _ E). split; [split; discriminate|].
    split; [discriminate|]. intros _. eexists. reflexivity.
Qed.

(** A failed assertion carries the caller's message as it is, the empty
    one included; without one, the message names the class of the
    argument and then the expected class or, for a tuple, the tuple. *)
Theorem type_check_message (arg : value) (arg_type : type_arg pytype) :
  isinstance arg arg_type = false ->
  (forall given,
     type_check arg arg_type (Some given) = RaisesTypecheckError given) /\
  type_check arg arg_type None =
  RaisesTypecheckError (default_message arg arg_type) /\
  Mime.occurs_in (str_type (type_of arg)) (default_message arg arg_type) /\
  match arg_type with
  | Class t => Mime.occurs_in (str_type t) (default_message arg arg_type)
  | Tuple _ => Mime.occurs_in (repr_arg arg_type)
                              (default_message arg arg_type)
  end.
Proof.
  intros E. split; [intros given; apply (type_check_fail _ _ (Some given) E)|].
  split; [apply (type_check_fail _ _ None E)|].
  split.
  - destruct arg_type; unfold TypeCheck.default_message;
      apply MimeFacts.occurs_in_append_r, MimeFacts.occurs_in_append_r,
            MimeFacts.occurs_in_append_l, MimeFacts.occurs_in_refl.
  - destruct arg_type; unfold TypeCheck.default_message.
    + do 6 apply MimeFacts.occurs_in_append_r.
      apply MimeFacts.occurs_in_append_l, MimeFacts.occurs_in_refl.
    + do 5 apply MimeFacts.occurs_in_append_r.
      apply MimeFacts.occurs_in_refl.
Qed.

(** A tuple of expected types passes a value exactly when one of its
    entries does, and the empty tuple passes nothing. *)
Theorem type_check_tuple (arg : value) (ts : list (type_arg pytype))
    (msg : option string) :
  (type_check arg (Tuple ts) msg = Returns arg <->
   exists t, In t ts /\ type_check arg t msg = Returns arg) /\
  (exists text, type_check arg (Tuple []) msg = RaisesTypecheckError text).
Proof.
  split.
  - rewrite type_check_pass_iff.
    cbn [TypeCheck.isinstance]. rewrite existsb_exists.
    split; intros (t & Hin & Ht); exists t; (split; [exact Hin|]).
    + apply type_check_pass, Ht.
    + apply (type_check_pass_iff arg t msg), Ht.
  - eexists. apply type_check_fail. reflexivity.
Qed.

End WithObjects.

Lemma type_check_message_witness :
  type_check bool unit (fun _ => tt) (fun _ _ => false)
             (fun _ => "cls") (fun _ => "(cls,)") true (Class tt) None =
  RaisesTypecheckError
    (default_message bool unit (fun _ => tt) (fun _ => "cls")
                     (fun _ => "(cls,)") true (Class tt)).
Proof.
  apply (type_check_message bool unit (fun _ => tt) (fun _ _ => false)
           (fun _ => "cls") (fun _ => "(cls,)") true (Class tt)).
  reflexivity.
Defined.

End TypeCheckFacts.
